(** * AI-Powered DApp Testing: test-case synthesis and step execution

    A shallow embedding of the TypeScript services [AITestGenerator]
    (test-case synthesis from a contract ABI) and [TestExecutor]
    (sequential execution of test steps against a chain client), together
    with the batch driver [handleExecuteTests] of [App.tsx], and the
    properties of the system specification stated over them.

    Conventions of the embedding:
    - a JavaScript property that may be absent is an [option]; reading a
      property of [undefined] raises a [TypeError], which is modelled by
      the [Throw] outcome;
    - [Date.now()], [Math.random()] and the random sources of ethers are
      operations of an abstract [Runtime]; the network behind ethers is an
      abstract [ChainClient];
    - test-case objects live in a heap and are mutated in place by the
      batch driver, as in the source. *)

From Stdlib Require Import ZArith Lia Ascii.
From stdpp Require Import base option list gmap strings pretty.
From Stdlib.Strings Require Import Byte.

Local Open Scope string_scope.
Local Open Scope list_scope.

(** ** JavaScript exceptions and fallible computations *)

Inductive JsError : Type :=
  | TypeError (msg : string)
  | Error (msg : string).

(** [error.message] *)
Definition message (e : JsError) : string :=
  match e with
  | TypeError m => m
  | Error m => m
  end.

Inductive outcome (A : Type) : Type :=
  | Ok (a : A)
  | Throw (e : JsError).
Arguments Ok {A} a.
Arguments Throw {A} e.

Definition is_ok {A} (o : outcome A) : bool :=
  match o with Ok _ => true | Throw _ => false end.

Definition obind {A B} (o : outcome A) (k : A -> outcome B) : outcome B :=
  match o with
  | Ok a => k a
  | Throw e => Throw e
  end.

(** [Array.prototype.map] with a callback that may throw: elements are
    visited left to right and the first exception aborts the traversal. *)
Fixpoint omap_list {A B} (f : A -> outcome B) (l : list A) : outcome (list B) :=
  match l with
  | [] => Ok []
  | x :: r => obind (f x) (fun y => obind (omap_list f r) (fun ys => Ok (y :: ys)))
  end.

(** State-and-exception monad: a thrown exception keeps the effects that
    were performed before it. *)
Module SE.
Definition t (S A : Type) : Type := S -> outcome A * S.

Definition ret {S A} (a : A) : t S A := fun s => (Ok a, s).

Definition throw {S A} (e : JsError) : t S A := fun s => (Throw e, s).

Definition bind {S A B} (m : t S A) (k : A -> t S B) : t S B :=
  fun s =>
    match m s with
    | (Ok a, s') => k a s'
    | (Throw e, s') => (Throw e, s')
    end.

Definition lift {S A} (o : outcome A) : t S A := fun s => (o, s).

(** an effect that cannot throw *)
Definition eff {S A} (f : S -> A * S) : t S A :=
  fun s => let (a, s') := f s in (Ok a, s').

Fixpoint mapM {S A B} (f : A -> t S B) (l : list A) : t S (list B) :=
  match l with
  | [] => ret []
  | x :: r => bind (f x) (fun y => bind (mapM f r) (fun ys => ret (y :: ys)))
  end.
End SE.

Notation "'let*' x ':=' m 'in' k" := (SE.bind m (fun x => k))
  (at level 10, x name, m at level 100, k at level 200, only parsing).

(** ** Data model ([types/TestCase.ts] and the ABI entries read by the generator) *)

(** An entry of [item.inputs]. *)
Record AbiInput : Type := mkInput {
  input_name : option string;
  input_type : option string
}.

(** An entry of the ABI array; every property the generator reads may be
    absent from the parsed JSON. *)
Record AbiItem : Type := mkItem {
  item_type : option string;
  item_name : option string;
  item_stateMutability : option string;
  item_inputs : option (list AbiInput)
}.

(** Argument values built by the generator: strings, booleans and, on the
    fuzz path, a [Uint8Array]. *)
Inductive ArgVal : Type :=
  | VStr (s : string)
  | VBool (b : bool)
  | VBytes (bs : list byte).

(** [step.params] as the generator fills it. *)
Record StepParams : Type := mkParams {
  method : option string;
  contractAddress : string;
  args : list ArgVal
}.

Record TestStep : Type := mkStep {
  step_id : string;
  action : string;
  params : StepParams;
  step_description : string
}.

Inductive Status : Type := pending | running | passed | failed.

Record TestCase : Type := mkCase {
  id : string;
  name : string;
  description : string;
  steps : list TestStep;
  expectedResult : string;
  actualResult : option string;
  status : Status
}.

Record TestResult : Type := mkResult {
  testCaseId : string;
  success : bool;
  error : option string;
  logs : list string;
  timestamp : Z
}.

(** ** The JavaScript runtime and the pure helpers of ethers *)

Class Runtime : Type := {
  rt : Type;
  (** a value returned by [Math.random()] *)
  float01 : Type;
  Date_now : rt -> Z * rt;
  Math_random : rt -> float01 * rt;
  (** [x.toString(36)] *)
  toString36 : float01 -> string;
  (** [x.toString()] *)
  toString10 : float01 -> string;
  (** [Math.floor(x * n)] *)
  floor_times : float01 -> Z -> Z;
  (** [x > 0.5] *)
  gt_half : float01 -> bool;
  (** [ethers.id(s)] *)
  ethers_id : string -> string;
  (** [ethers.Wallet.createRandom().address] *)
  Wallet_createRandom_address : rt -> string * rt;
  (** [ethers.randomBytes(n)] *)
  ethers_randomBytes : nat -> rt -> list byte * rt
}.

(** Rendering of a possibly absent string inside a template literal. *)
Definition tpl (o : option string) : string := default "undefined" o.

(** [s.substring(n)] *)
Fixpoint substring_from (n : nat) (s : string) : string :=
  match n, s with
  | O, _ => s
  | S n', EmptyString => EmptyString
  | S n', String _ s' => substring_from n' s'
  end.

(** [ethers.parseUnits(n.toString(), 'ether')] for an integer [n]. *)
Definition parseUnits_ether (n : Z) : Z := (n * 10 ^ 18)%Z.

Definition MaxUint256 : Z := (2 ^ 256 - 1)%Z.
Definition MinInt256 : Z := (- 2 ^ 255)%Z.
Definition MaxInt256 : Z := (2 ^ 255 - 1)%Z.

(** ** AITestGenerator *)

Module AITestGenerator.
Section Generator.
Context {RT : Runtime}.

Definition Gen (A : Type) : Type := SE.t rt A.

Definition now : Gen Z := SE.eff Date_now.
Definition random : Gen float01 := SE.eff Math_random.

(** [Math.random().toString(36).substr(2, 9)] *)
Definition random_suffix : Gen string :=
  let* r := random in SE.ret (String.substring 2 9 (toString36 r)).

(** The body of the [switch] of [generateSafeArgs]. *)
Definition safe_value (ty : option string) : ArgVal :=
  if decide (ty = Some "uint256") then VStr (pretty (parseUnits_ether 1))
  else if decide (ty = Some "uint8") then VStr "1"
  else if decide (ty = Some "address")
    then VStr "0x0000000000000000000000000000000000000001"
  else if decide (ty = Some "string") then VStr "Test String"
  else if decide (ty = Some "bool") then VBool true
  else if decide (ty = Some "bytes") then VStr "0x00"
  else if decide (ty = Some "bytes32") then VStr (ethers_id "test")
  else VStr "0".

Definition generateSafeArgs (inputs : option (list AbiInput))
  : outcome (list ArgVal) :=
  match inputs with
  | None => Throw (TypeError "Cannot read properties of undefined (reading 'map')")
  | Some l => Ok (map (fun input => safe_value (input_type input)) l)
  end.

Inductive Boundary : Type := Bmin | Bmax.

(** The callback of [generateBoundaryArgs]; its last line is
    [this.generateSafeArgs([input])[0]]. *)
Definition boundary_value (boundary : Boundary) (input : AbiInput)
  : outcome ArgVal :=
  match input_type input with
  | None =>
      Throw (TypeError "Cannot read properties of undefined (reading 'startsWith')")
  | Some ty =>
      if String.prefix "uint" ty then
        Ok (VStr (match boundary with
                  | Bmin => "0"
                  | Bmax => pretty MaxUint256
                  end))
      else if String.prefix "int" ty then
        Ok (VStr (match boundary with
                  | Bmin => pretty MinInt256
                  | Bmax => pretty MaxInt256
                  end))
      else
        obind (generateSafeArgs (Some [input]))
              (fun vs => Ok (List.hd (VStr "undefined") vs))
  end.

Definition generateBoundaryArgs (inputs : option (list AbiInput))
    (boundary : Boundary) : outcome (list ArgVal) :=
  match inputs with
  | None => Throw (TypeError "Cannot read properties of undefined (reading 'map')")
  | Some l => omap_list (boundary_value boundary) l
  end.

(** The body of the [switch] of [generateFuzzedArgs]. *)
Definition fuzz_value (input : AbiInput) : Gen ArgVal :=
  let ty := input_type input in
  if decide (ty = Some "uint256") then
    let* r := random in
    SE.ret (VStr (pretty (parseUnits_ether (floor_times r 1000))))
  else if decide (ty = Some "uint8") then
    let* r := random in SE.ret (VStr (pretty (floor_times r 256)))
  else if decide (ty = Some "address") then
    let* a := SE.eff Wallet_createRandom_address in SE.ret (VStr a)
  else if decide (ty = Some "string") then
    let* r := random in SE.ret (VStr (substring_from 7 (toString36 r)))
  else if decide (ty = Some "bool") then
    let* r := random in SE.ret (VBool (gt_half r))
  else if decide (ty = Some "bytes") then
    let* bs := SE.eff (ethers_randomBytes 32) in SE.ret (VBytes bs)
  else if decide (ty = Some "bytes32") then
    let* r := random in SE.ret (VStr (ethers_id (toString10 r)))
  else SE.ret (VStr "0").

Definition generateFuzzedArgs (inputs : option (list AbiInput))
  : Gen (list ArgVal) :=
  match inputs with
  | None =>
      SE.throw (TypeError "Cannot read properties of undefined (reading 'map')")
  | Some l => SE.mapM fuzz_value l
  end.

(** [inputs.some(input => input.type.startsWith('uint') ||
    input.type.startsWith('int'))] *)
Fixpoint some_integer (l : list AbiInput) : outcome bool :=
  match l with
  | [] => Ok false
  | input :: r =>
      match input_type input with
      | None =>
          Throw (TypeError "Cannot read properties of undefined (reading 'startsWith')")
      | Some ty =>
          if String.prefix "uint" ty || String.prefix "int" ty then Ok true
          else some_integer r
      end
  end.

Definition inputs_some_integer (inputs : option (list AbiInput)) : outcome bool :=
  match inputs with
  | None => Throw (TypeError "Cannot read properties of undefined (reading 'some')")
  | Some l => some_integer l
  end.

(** [inputs.length] *)
Definition inputs_length (inputs : option (list AbiInput)) : outcome nat :=
  match inputs with
  | None => Throw (TypeError "Cannot read properties of undefined (reading 'length')")
  | Some l => Ok (length l)
  end.

Definition createViewFunctionTest (abiItem : AbiItem) (contractAddress : string)
  : Gen TestCase :=
  let* t := now in
  let* sfx := random_suffix in
  let* t1 := now in
  let* safe := SE.lift (generateSafeArgs (item_inputs abiItem)) in
  SE.ret {|
    id := "view-" +:+ pretty t +:+ "-" +:+ sfx;
    name := "Read Test: " +:+ tpl (item_name abiItem);
    description :=
      "Verify read operation for " +:+ tpl (item_name abiItem) +:+ " function";
    steps := [ {|
      step_id := "step-" +:+ pretty t1;
      action := "CONTRACT_CALL";
      params := {| method := item_name abiItem;
                   contractAddress := contractAddress;
                   args := safe |};
      step_description :=
        "Call " +:+ tpl (item_name abiItem) +:+ " with safe parameters" |} ];
    expectedResult := "Function should return a valid response";
    actualResult := None;
    status := pending |}.

Definition createWriteFunctionTest (abiItem : AbiItem) (contractAddress : string)
  : Gen TestCase :=
  let* t := now in
  let* sfx := random_suffix in
  let* t1 := now in
  let* safe := SE.lift (generateSafeArgs (item_inputs abiItem)) in
  SE.ret {|
    id := "write-" +:+ pretty t +:+ "-" +:+ sfx;
    name := "Write Test: " +:+ tpl (item_name abiItem);
    description :=
      "Verify state change for " +:+ tpl (item_name abiItem) +:+ " function";
    steps := [ {|
      step_id := "step-" +:+ pretty t1;
      action := "CONTRACT_CALL";
      params := {| method := item_name abiItem;
                   contractAddress := contractAddress;
                   args := safe |};
      step_description :=
        "Execute " +:+ tpl (item_name abiItem) +:+ " with valid parameters" |} ];
    expectedResult :=
      "Transaction should be successful and state should be updated";
    actualResult := None;
    status := pending |}.

Definition createBoundaryTest (abiItem : AbiItem) (contractAddress : string)
  : Gen TestCase :=
  let* t := now in
  let* sfx := random_suffix in
  let* t1 := now in
  let* lo := SE.lift (generateBoundaryArgs (item_inputs abiItem) Bmin) in
  let* t2 := now in
  let* hi := SE.lift (generateBoundaryArgs (item_inputs abiItem) Bmax) in
  SE.ret {|
    id := "boundary-" +:+ pretty t +:+ "-" +:+ sfx;
    name := "Boundary Test: " +:+ tpl (item_name abiItem);
    description :=
      "Test boundary conditions for " +:+ tpl (item_name abiItem) +:+ " function";
    steps := [
      {| step_id := "step-min-" +:+ pretty t1;
         action := "CONTRACT_CALL";
         params := {| method := item_name abiItem;
                      contractAddress := contractAddress;
                      args := lo |};
         step_description :=
           "Test " +:+ tpl (item_name abiItem) +:+ " with minimum values" |};
      {| step_id := "step-max-" +:+ pretty t2;
         action := "CONTRACT_CALL";
         params := {| method := item_name abiItem;
                      contractAddress := contractAddress;
                      args := hi |};
         step_description :=
           "Test " +:+ tpl (item_name abiItem) +:+ " with maximum values" |} ];
    expectedResult := "Function should handle boundary values correctly";
    actualResult := None;
    status := pending |}.

Definition createFuzzingTest (abiItem : AbiItem) (contractAddress : string)
  : Gen TestCase :=
  let* t := now in
  let* sfx := random_suffix in
  let* t1 := now in
  let* fuzzed := generateFuzzedArgs (item_inputs abiItem) in
  SE.ret {|
    id := "fuzz-" +:+ pretty t +:+ "-" +:+ sfx;
    name := "Fuzzing Test: " +:+ tpl (item_name abiItem);
    description :=
      "Fuzz testing for " +:+ tpl (item_name abiItem)
      +:+ " function with random inputs";
    steps := [ {|
      step_id := "step-fuzz-" +:+ pretty t1;
      action := "CONTRACT_CALL";
      params := {| method := item_name abiItem;
                   contractAddress := contractAddress;
                   args := fuzzed |};
      step_description :=
        "Test " +:+ tpl (item_name abiItem) +:+ " with fuzzed inputs" |} ];
    expectedResult := "Function should handle unexpected inputs gracefully";
    actualResult := None;
    status := pending |}.

(** [item.type === 'function'] *)
Definition is_function (item : AbiItem) : bool :=
  bool_decide (item_type item = Some "function").

(** [item.stateMutability === 'view' || item.stateMutability === 'pure'] *)
Definition is_view_or_pure (item : AbiItem) : bool :=
  bool_decide (item_stateMutability item = Some "view")
  || bool_decide (item_stateMutability item = Some "pure").

(** The predicate of [writeFunctions]. *)
Definition is_write (item : AbiItem) : bool :=
  is_function item
  && negb (bool_decide (item_stateMutability item = Some "view"))
  && negb (bool_decide (item_stateMutability item = Some "pure")).

(** The predicate of [readFunctions]. *)
Definition is_read (item : AbiItem) : bool :=
  is_function item && is_view_or_pure item.

Definition generateIntegrationTests (abi : list AbiItem) (contractAddress : string)
  : Gen (list TestCase) :=
  let writeFunctions := List.filter is_write abi in
  let readFunctions := List.filter is_read abi in
  match writeFunctions, readFunctions with
  | w :: _, r :: _ =>
      let* t := now in
      let* sfx := random_suffix in
      let* t1 := now in
      let* wargs := SE.lift (generateSafeArgs (item_inputs w)) in
      let* t2 := now in
      let* rargs := SE.lift (generateSafeArgs (item_inputs r)) in
      SE.ret [ {|
        id := "integration-" +:+ pretty t +:+ "-" +:+ sfx;
        name := "State Change Verification";
        description :=
          "Verify state changes through write operations and confirm with read operations";
        steps := [
          {| step_id := "step-write-" +:+ pretty t1;
             action := "CONTRACT_CALL";
             params := {| method := item_name w;
                          contractAddress := contractAddress;
                          args := wargs |};
             step_description :=
               "Execute " +:+ tpl (item_name w) +:+ " to modify state" |};
          {| step_id := "step-read-" +:+ pretty t2;
             action := "CONTRACT_CALL";
             params := {| method := item_name r;
                          contractAddress := contractAddress;
                          args := rargs |};
             step_description :=
               "Verify state change using " +:+ tpl (item_name r) |} ];
        expectedResult := "State change should be reflected in read operation";
        actualResult := None;
        status := pending |} ]
  | _, _ => SE.ret []
  end.

(** The body of the [for ... of] loop of [generateTestCases]: the cases it
    pushes onto [testCases]. *)
Definition loop_body (item : AbiItem) (contractAddress : string)
    (testCases : list TestCase) : Gen (list TestCase) :=
  if is_function item then
    let* testCases :=
      (if is_view_or_pure item
       then let* c := createViewFunctionTest item contractAddress in
            SE.ret (testCases ++ [c])
       else let* c := createWriteFunctionTest item contractAddress in
            SE.ret (testCases ++ [c])) in
    let* numeric := SE.lift (inputs_some_integer (item_inputs item)) in
    let* testCases :=
      (if numeric : bool
       then let* c := createBoundaryTest item contractAddress in
            SE.ret (testCases ++ [c])
       else SE.ret testCases) in
    let* n := SE.lift (inputs_length (item_inputs item)) in
    if (0 <? n)%nat
    then let* c := createFuzzingTest item contractAddress in
         SE.ret (testCases ++ [c])
    else SE.ret testCases
  else SE.ret testCases.

Fixpoint for_of (abi : list AbiItem) (contractAddress : string)
    (testCases : list TestCase) : Gen (list TestCase) :=
  match abi with
  | [] => SE.ret testCases
  | item :: rest =>
      let* testCases := loop_body item contractAddress testCases in
      for_of rest contractAddress testCases
  end.

Definition generateTestCases (abi : list AbiItem) (contractAddress : string)
  : Gen (list TestCase) :=
  let* testCases := for_of abi contractAddress [] in
  let* integration := generateIntegrationTests abi contractAddress in
  SE.ret (testCases ++ integration).
End Generator.
End AITestGenerator.

(** ** The chain client behind ethers

    [ethers.Contract], a contract method call, [tx.wait()] and
    [provider.getCode] are the only points at which the executor reaches
    the network; each may raise. *)

Class ChainClient : Type := {
  (** the network as reachable through the providers *)
  chain : Type;
  Contract : Type;
  TxResponse : Type;
  (** [new ethers.Contract(address, [method], signer)], the signer being
      connected to the provider of the given endpoint *)
  new_Contract : string -> string -> option string -> outcome Contract;
  (** [await contract[method](...args)] *)
  contract_call :
    Contract -> option string -> list ArgVal -> chain -> outcome TxResponse * chain;
  (** [await tx.wait()] *)
  tx_wait : TxResponse -> chain -> outcome unit * chain;
  (** [tx.hash] inside a template literal *)
  tx_hash : TxResponse -> string;
  (** [await provider.getCode(address)] on the given endpoint *)
  getCode : string -> string -> chain -> outcome string * chain
}.

(** A contract method invocation handed to the chain client. *)
Record Submission : Type := mkSubmission {
  sub_address : string;
  sub_method : option string;
  sub_args : list ArgVal
}.

(** ** TestExecutor and the batch driver of [App.tsx] *)

Module TestExecutor.
Section Executor.
Context {RT : Runtime} {CC : ChainClient}.

(** Everything the executor and the driver can read or write: the
    runtime, the network, [this.provider], the test-case objects, the
    React state of [App], and (as ghost state) the submissions made. *)
Record World : Type := mkWorld {
  clock : rt;
  net : chain;
  provider : string;
  heap : gmap nat TestCase;
  submitted : list Submission;
  ui_testCases : list nat;
  ui_error : string;
  ui_isExecuting : bool;
  ui_isValidContract : bool
}.

Definition set_clock (c : rt) (w : World) : World :=
  mkWorld c (net w) (provider w) (heap w) (submitted w) (ui_testCases w)
          (ui_error w) (ui_isExecuting w) (ui_isValidContract w).
Definition set_net (n : chain) (w : World) : World :=
  mkWorld (clock w) n (provider w) (heap w) (submitted w) (ui_testCases w)
          (ui_error w) (ui_isExecuting w) (ui_isValidContract w).
Definition set_provider (p : string) (w : World) : World :=
  mkWorld (clock w) (net w) p (heap w) (submitted w) (ui_testCases w)
          (ui_error w) (ui_isExecuting w) (ui_isValidContract w).
Definition set_heap (h : gmap nat TestCase) (w : World) : World :=
  mkWorld (clock w) (net w) (provider w) h (submitted w) (ui_testCases w)
          (ui_error w) (ui_isExecuting w) (ui_isValidContract w).
Definition set_submitted (l : list Submission) (w : World) : World :=
  mkWorld (clock w) (net w) (provider w) (heap w) l (ui_testCases w)
          (ui_error w) (ui_isExecuting w) (ui_isValidContract w).
Definition set_testCases (l : list nat) (w : World) : World :=
  mkWorld (clock w) (net w) (provider w) (heap w) (submitted w) l
          (ui_error w) (ui_isExecuting w) (ui_isValidContract w).
Definition set_error (e : string) (w : World) : World :=
  mkWorld (clock w) (net w) (provider w) (heap w) (submitted w) (ui_testCases w)
          e (ui_isExecuting w) (ui_isValidContract w).
Definition set_isExecuting (b : bool) (w : World) : World :=
  mkWorld (clock w) (net w) (provider w) (heap w) (submitted w) (ui_testCases w)
          (ui_error w) b (ui_isValidContract w).

Definition Exec (A : Type) : Type := SE.t World A.

Definition mainnet_url : string := "https://eth-mainnet.g.alchemy.com/v2/demo".

Definition networks : list (string * string) :=
  [ ("mainnet", mainnet_url);
    ("goerli", "https://eth-goerli.g.alchemy.com/v2/demo");
    ("sepolia", "https://eth-sepolia.g.alchemy.com/v2/demo");
    ("polygon", "https://polygon-mainnet.g.alchemy.com/v2/demo");
    ("mumbai", "https://polygon-mumbai.g.alchemy.com/v2/demo") ].

Fixpoint table_lookup (k : string) (t : list (string * string)) : option string :=
  match t with
  | [] => None
  | (k', v) :: r => if String.eqb k k' then Some v else table_lookup k r
  end.

(** [networks[network] || networks.mainnet], for the own keys of the table *)
Definition setProvider (network : string) : Exec unit :=
  fun w => (Ok tt, set_provider (default mainnet_url (table_lookup network networks)) w).

(** The local array [logs] lives next to the world while a test runs. *)
Definition Run (A : Type) : Type := SE.t (World * list string) A.

Definition log (line : string) : Run unit :=
  fun s => (Ok tt, (s.1, s.2 ++ [line])).

Definition construct (address : string) (m : option string) : Run Contract :=
  fun s => (new_Contract (provider s.1) address m, s).

(** The submission [contract[method](...args)]; the ghost trace records it. *)
Definition submit (c : Contract) (address : string) (m : option string)
    (a : list ArgVal) : Run TxResponse :=
  fun s =>
    let (o, n) := contract_call c m a (net s.1) in
    (o, (set_submitted (submitted s.1 ++ [mkSubmission address m a])
           (set_net n s.1), s.2)).

Definition wait (tx : TxResponse) : Run unit :=
  fun s => let (o, n) := tx_wait tx (net s.1) in (o, (set_net n s.1, s.2)).

(** The body of the [for ... of] loop of [executeTest]. *)
Definition run_step (step : TestStep) : Run unit :=
  if decide (action step = "CONTRACT_CALL") then
    let* contract :=
      construct (contractAddress (params step)) (method (params step)) in
    let* _ := log ("Executing contract call: " +:+ tpl (method (params step))) in
    let* tx := submit contract (contractAddress (params step))
                      (method (params step)) (args (params step)) in
    let* _ := wait tx in
    log ("Transaction successful: " +:+ tx_hash tx)
  else SE.ret tt.

Fixpoint run_steps (l : list TestStep) : Run unit :=
  match l with
  | [] => SE.ret tt
  | step :: r => let* _ := run_step step in run_steps r
  end.

(** The [try] block of [executeTest] up to the [return]. *)
Definition try_block (testCase : TestCase) : Run unit :=
  let* _ := log ("Starting test: " +:+ name testCase) in
  run_steps (steps testCase).

(** [executeTest(testCase)], the argument being a reference into the heap.
    A reference to nothing behaves as [undefined]: the read of
    [testCase.id] in the [catch] block raises out of the function. *)
Definition executeTest (ref : nat) : Exec TestResult :=
  fun w =>
    match heap w !! ref with
    | None =>
        (Throw (TypeError "Cannot read properties of undefined (reading 'id')"), w)
    | Some testCase =>
        match try_block testCase (w, []) with
        | (Ok _, (w1, logs)) =>
            let (t, c) := Date_now (clock w1) in
            (Ok {| testCaseId := id testCase;
                   success := true;
                   error := None;
                   logs := logs;
                   timestamp := t |}, set_clock c w1)
        | (Throw e, (w1, logs)) =>
            let (t, c) := Date_now (clock w1) in
            (Ok {| testCaseId := id testCase;
                   success := false;
                   error := Some (message e);
                   logs := logs ++ ["Error: " +:+ message e];
                   timestamp := t |}, set_clock c w1)
        end
    end.


(** In-place assignments to a test-case object. *)
Definition assign_status (ref : nat) (st : Status) : Exec unit :=
  fun w =>
    match heap w !! ref with
    | None =>
        (Throw (TypeError "Cannot set properties of undefined (setting 'status')"), w)
    | Some tc =>
        (Ok tt,
         set_heap (<[ref := mkCase (id tc) (name tc) (description tc) (steps tc)
                              (expectedResult tc) (actualResult tc) st]> (heap w)) w)
    end.

Definition assign_actualResult (ref : nat) (r : option string) : Exec unit :=
  fun w =>
    match heap w !! ref with
    | None =>
        (Throw (TypeError
           "Cannot set properties of undefined (setting 'actualResult')"), w)
    | Some tc =>
        (Ok tt,
         set_heap (<[ref := mkCase (id tc) (name tc) (description tc) (steps tc)
                              (expectedResult tc) r (status tc)]> (heap w)) w)
    end.

(** [setTestCases([...updatedTests])]: a fresh array of the same references *)
Definition setTestCases (updatedTests : list nat) : Exec unit :=
  fun w => (Ok tt, set_testCases updatedTests w).

(** The body of the [for] loop of [handleExecuteTests] for [updatedTests[i]]. *)
Definition iteration (updatedTests : list nat) (test : nat) : Exec unit :=
  let* _ := assign_status test running in
  let* _ := setTestCases updatedTests in
  let* result := executeTest test in
  let* _ := assign_status test (if success result then passed else failed) in
  let* _ := assign_actualResult test
              (if success result then Some "Test passed successfully"
               else error result) in
  setTestCases updatedTests.

Fixpoint for_i (updatedTests : list nat) (rest : list nat) : Exec unit :=
  match rest with
  | [] => SE.ret tt
  | test :: r => let* _ := iteration updatedTests test in for_i updatedTests r
  end.

(** [handleExecuteTests] with the [selectedNetwork] and [testCases] of the
    render that created the handler. *)
Definition handleExecuteTests (selectedNetwork : string) (testCases : list nat)
    (w : World) : World :=
  let w := set_isExecuting true (set_error "" w) in
  let body :=
    let* _ := setProvider selectedNetwork in
    for_i testCases testCases in
  match body w with
  | (Ok _, w') => set_isExecuting false w'
  | (Throw e, w') => set_isExecuting false (set_error (message e) w')
  end.

Definition is_hex (c : ascii) : bool :=
  let n := nat_of_ascii c in
  ((48 <=? n) && (n <=? 57) || (97 <=? n) && (n <=? 102)
   || (65 <=? n) && (n <=? 70))%nat.

(** [s.match(/^0x[a-fA-F0-9]{40}$/)] *)
Definition matches_address (s : string) : bool :=
  match s with
  | String "0"%char (String "x"%char r) =>
      (String.length r =? 40)%nat && forallb is_hex (String.list_ascii_of_string r)
  | _ => false
  end.

End Executor.
End TestExecutor.

(** ** A deterministic runtime for examples

    The state is a tick counter; the clock advances by one millisecond per
    reading and the [n]-th random draw is rendered from [n]. *)

Module Sim.
Definition sim_now (n : nat) : Z * nat := ((1700000000000 + Z.of_nat n)%Z, S n).

Definition sim_random (n : nat) : nat * nat := (n, S n).

Definition sim_toString36 (r : nat) : string := "0.k" +:+ pretty r +:+ "x7q2m9".

Definition sim_toString10 (r : nat) : string := "0." +:+ pretty r.

Definition sim_floor_times (r : nat) (n : Z) : Z := (Z.of_nat r mod n)%Z.

Definition sim_id (s : string) : string := "0xhash:" +:+ s.

Definition sim_address (n : nat) : string * nat := ("0xwallet" +:+ pretty n, S n).

Definition sim_randomBytes (k n : nat) : list byte * nat := (replicate k x2a, S n).

Definition runtime : Runtime := {|
  rt := nat;
  float01 := nat;
  Date_now := sim_now;
  Math_random := sim_random;
  toString36 := sim_toString36;
  toString10 := sim_toString10;
  floor_times := sim_floor_times;
  gt_half := Nat.even;
  ethers_id := sim_id;
  Wallet_createRandom_address := sim_address;
  ethers_randomBytes := sim_randomBytes
|}.
End Sim.

Import AITestGenerator.

Definition ex_balanceOf : AbiItem :=
  mkItem (Some "function") (Some "balanceOf") (Some "view")
         (Some [mkInput (Some "owner") (Some "address")]).
Definition ex_transfer : AbiItem :=
  mkItem (Some "function") (Some "transfer") (Some "nonpayable")
         (Some [mkInput (Some "to") (Some "address"); mkInput (Some "amount") (Some "uint256")]).
Definition ex_event : AbiItem :=
  mkItem (Some "event") (Some "Transfer") None None.
(** a function entry whose [inputs] list is missing *)
Definition ex_no_inputs : AbiItem :=
  mkItem (Some "function") (Some "paused") (Some "view") None.
Definition ex_token : list AbiItem := [ex_balanceOf; ex_event; ex_transfer].


(** An in-memory chain client: a call to a method named [revertMe] is
    rejected, the confirmation of [stall] fails, and only one address
    holds code. *)
Module SimChain.
Definition sim_new_Contract (endpoint address : string) (m : option string)
  : outcome (string * option string) :=
  if String.eqb address "" then Throw (Error "invalid address")
  else Ok (address, m).

Definition sim_call (c : string * option string) (m : option string)
    (a : list ArgVal) (n : nat) : outcome (nat * bool) * nat :=
  if decide (m = Some "revertMe") then (Throw (Error "execution reverted"), n)
  else (Ok (n, bool_decide (m = Some "stall")), S n).

Definition sim_wait (tx : nat * bool) (n : nat) : outcome unit * nat :=
  if tx.2 then (Throw (Error "deadline exceeded"), n) else (Ok tt, S n).

Definition sim_hash (tx : nat * bool) : string := "0xtx" +:+ pretty tx.1.

Definition deployed : string := "0x00000000000000000000000000000000000000aa".

Definition sim_getCode (endpoint address : string) (n : nat)
  : outcome string * nat :=
  if negb (TestExecutor.matches_address address)
  then (Throw (Error "invalid address"), n)
  else if String.eqb address deployed then (Ok "0x6080604052", n)
  else (Ok "0x", n).

Definition client : ChainClient := {|
  chain := nat;
  Contract := string * option string;
  TxResponse := nat * bool;
  new_Contract := sim_new_Contract;
  contract_call := sim_call;
  tx_wait := sim_wait;
  tx_hash := sim_hash;
  getCode := sim_getCode
|}.

Definition call_of (m : string) : TestStep :=
  mkStep "step-1" "CONTRACT_CALL" (mkParams (Some m) deployed [VStr "1"])
         ("Call " +:+ m).

(** a case whose first step is rejected by the network *)
Definition reverting_case : TestCase :=
  mkCase "case-1" "Reverting" "" [call_of "revertMe"; call_of "transfer"]
         "" None pending.

(** a case whose steps all complete *)
Definition passing_case : TestCase :=
  mkCase "case-2" "Passing" "" [call_of "approve"; call_of "transfer"]
         "" None pending.

(** a case without any contract call *)
Definition idle_case : TestCase :=
  mkCase "case-3" "Idle" ""
         [mkStep "step-1" "WAIT" (mkParams None "" []) "pause";
          mkStep "step-2" "contract_call" (mkParams (Some "transfer") deployed []) ""]
         "" None pending.

Definition world (h : gmap nat TestCase) : @TestExecutor.World Sim.runtime client :=
  @TestExecutor.mkWorld Sim.runtime client 0%nat 0%nat TestExecutor.mainnet_url
    h [] [] "" false false.

Definition reverting_world : @TestExecutor.World Sim.runtime client :=
  world {[ 0%nat := reverting_case ]}.

Definition passing_world : @TestExecutor.World Sim.runtime client :=
  world {[ 0%nat := passing_case ]}.

Definition idle_world : @TestExecutor.World Sim.runtime client :=
  world {[ 0%nat := idle_case ]}.

(** the fault raised for [revertMe] *)
Definition reverted : JsError := Error "execution reverted".
End SimChain.

(** ** Structural content of a test case

    Everything but the identifiers, and, for a fuzz case, but the sampled
    argument values. *)

Module Content.
Record StepContent : Type := mkStepContent {
  sc_action : string;
  sc_method : option string;
  sc_address : string;
  sc_args : option (list ArgVal);
  sc_description : string
}.

Record CaseContent : Type := mkCaseContent {
  c_name : string;
  c_description : string;
  c_steps : list StepContent;
  c_expectedResult : string;
  c_actualResult : option string;
  c_status : Status
}.

Definition is_read_name (n : string) : bool := String.prefix "Read Test: " n.
Definition is_write_name (n : string) : bool := String.prefix "Write Test: " n.
Definition is_boundary_name (n : string) : bool := String.prefix "Boundary Test: " n.
Definition is_fuzz_name (n : string) : bool := String.prefix "Fuzzing Test: " n.
Definition is_integration_name (n : string) : bool :=
  String.eqb n "State Change Verification".

Definition step_content (fuzz : bool) (st : TestStep) : StepContent :=
  {| sc_action := action st;
     sc_method := method (params st);
     sc_address := contractAddress (params st);
     sc_args := if fuzz then None else Some (args (params st));
     sc_description := step_description st |}.

Definition content (tc : TestCase) : CaseContent :=
  {| c_name := name tc;
     c_description := description tc;
     c_steps := map (step_content (is_fuzz_name (name tc))) (steps tc);
     c_expectedResult := expectedResult tc;
     c_actualResult := actualResult tc;
     c_status := status tc |}.

Definition omap {A B} (f : A -> B) (o : outcome A) : outcome B :=
  match o with
  | Ok a => Ok (f a)
  | Throw e => Throw e
  end.

Definition call_step (m : option string) (address : string)
    (a : option (list ArgVal)) (d : string) : StepContent :=
  mkStepContent "CONTRACT_CALL" m address a d.

Section Expected.
Context {RT : Runtime}.

Definition view_content (item : AbiItem) (address : string)
    (safe : list ArgVal) : CaseContent :=
  {| c_name := "Read Test: " +:+ tpl (item_name item);
     c_description :=
       "Verify read operation for " +:+ tpl (item_name item) +:+ " function";
     c_steps :=
       [ call_step (item_name item) address (Some safe)
           ("Call " +:+ tpl (item_name item) +:+ " with safe parameters") ];
     c_expectedResult := "Function should return a valid response";
     c_actualResult := None;
     c_status := pending |}.

Definition write_content (item : AbiItem) (address : string)
    (safe : list ArgVal) : CaseContent :=
  {| c_name := "Write Test: " +:+ tpl (item_name item);
     c_description :=
       "Verify state change for " +:+ tpl (item_name item) +:+ " function";
     c_steps :=
       [ call_step (item_name item) address (Some safe)
           ("Execute " +:+ tpl (item_name item) +:+ " with valid parameters") ];
     c_expectedResult :=
       "Transaction should be successful and state should be updated";
     c_actualResult := None;
     c_status := pending |}.

Definition boundary_content (item : AbiItem) (address : string)
    (lo hi : list ArgVal) : CaseContent :=
  {| c_name := "Boundary Test: " +:+ tpl (item_name item);
     c_description :=
       "Test boundary conditions for " +:+ tpl (item_name item) +:+ " function";
     c_steps :=
       [ call_step (item_name item) address (Some lo)
           ("Test " +:+ tpl (item_name item) +:+ " with minimum values");
         call_step (item_name item) address (Some hi)
           ("Test " +:+ tpl (item_name item) +:+ " with maximum values") ];
     c_expectedResult := "Function should handle boundary values correctly";
     c_actualResult := None;
     c_status := pending |}.

Definition fuzz_content (item : AbiItem) (address : string) : CaseContent :=
  {| c_name := "Fuzzing Test: " +:+ tpl (item_name item);
     c_description :=
       "Fuzz testing for " +:+ tpl (item_name item)
       +:+ " function with random inputs";
     c_steps :=
       [ call_step (item_name item) address None
           ("Test " +:+ tpl (item_name item) +:+ " with fuzzed inputs") ];
     c_expectedResult := "Function should handle unexpected inputs gracefully";
     c_actualResult := None;
     c_status := pending |}.

Definition integration_content (w r : AbiItem) (address : string)
    (wargs rargs : list ArgVal) : CaseContent :=
  {| c_name := "State Change Verification";
     c_description :=
       "Verify state changes through write operations and confirm with read operations";
     c_steps :=
       [ call_step (item_name w) address (Some wargs)
           ("Execute " +:+ tpl (item_name w) +:+ " to modify state");
         call_step (item_name r) address (Some rargs)
           ("Verify state change using " +:+ tpl (item_name r)) ];
     c_expectedResult := "State change should be reflected in read operation";
     c_actualResult := None;
     c_status := pending |}.

(** The content of the cases one loop iteration pushes. *)
Definition item_contents (item : AbiItem) (address : string)
  : outcome (list CaseContent) :=
  if is_function item then
    obind (generateSafeArgs (item_inputs item)) (fun safe =>
    obind (inputs_some_integer (item_inputs item)) (fun numeric =>
    obind (if numeric : bool
           then obind (generateBoundaryArgs (item_inputs item) Bmin) (fun lo =>
                obind (generateBoundaryArgs (item_inputs item) Bmax) (fun hi =>
                Ok [boundary_content item address lo hi]))
           else Ok []) (fun bnd =>
    obind (inputs_length (item_inputs item)) (fun n =>
    Ok ([ if is_view_or_pure item then view_content item address safe
          else write_content item address safe ]
        ++ bnd
        ++ (if (0 <? n)%nat then [fuzz_content item address] else []))))))
  else Ok [].

Fixpoint items_contents (abi : list AbiItem) (address : string)
  : outcome (list CaseContent) :=
  match abi with
  | [] => Ok []
  | item :: rest =>
      obind (item_contents item address) (fun cs =>
      obind (items_contents rest address) (fun r => Ok (cs ++ r)))
  end.

Definition integration_contents (abi : list AbiItem) (address : string)
  : outcome (list CaseContent) :=
  match List.filter is_write abi, List.filter is_read abi with
  | w :: _, r :: _ =>
      obind (generateSafeArgs (item_inputs w)) (fun wargs =>
      obind (generateSafeArgs (item_inputs r)) (fun rargs =>
      Ok [integration_content w r address wargs rargs]))
  | _, _ => Ok []
  end.

Definition contents (abi : list AbiItem) (address : string)
  : outcome (list CaseContent) :=
  obind (items_contents abi address) (fun cs =>
  obind (integration_contents abi address) (fun i => Ok (cs ++ i))).

(** A run result [o] extends the accumulator [acc] by cases whose content
    is [p], or fails with the exception of [p]. *)
Definition extends (acc : list TestCase) (o : outcome (list TestCase))
    (p : outcome (list CaseContent)) : Prop :=
  match o with
  | Ok r => exists seg, r = acc ++ seg /\ p = Ok (map content seg)
  | Throw e => p = Throw e
  end.

(** [segs] are the cases pushed for the entries of [abi], one segment per
    entry. *)
Definition segments (abi : list AbiItem) (address : string)
    (segs : list (list TestCase)) : Prop :=
  Forall2 (fun item seg => item_contents item address = Ok (map content seg))
          abi segs.
End Expected.
End Content.

(** ** The vocabulary of the specification *)

Module Spec.
(** The five kinds of case, recognised by the case name. *)
Inductive Kind : Type := ReadCase | WriteCase | BoundaryCase | FuzzCase | IntegrationCase.

Global Instance Kind_eq_dec : EqDecision Kind.
Proof. solve_decision. Defined.

Definition kind_of_name (n : string) : option Kind :=
  if Content.is_read_name n then Some ReadCase
  else if Content.is_write_name n then Some WriteCase
  else if Content.is_boundary_name n then Some BoundaryCase
  else if Content.is_fuzz_name n then Some FuzzCase
  else if Content.is_integration_name n then Some IntegrationCase
  else None.

Definition kind (tc : TestCase) : option Kind := kind_of_name (name tc).

Definition kindc (c : Content.CaseContent) : option Kind :=
  kind_of_name (Content.c_name c).


(** A schema entry the generator can process: a function entry carries an
    inputs list whose parameters all carry a type tag. *)
Definition has_type (input : AbiInput) : bool :=
  match input_type input with Some _ => true | None => false end.

Definition wf_item (item : AbiItem) : bool :=
  if is_function item then
    match item_inputs item with
    | Some l => forallb has_type l
    | None => false
    end
  else true.

Definition wf_abi (abi : list AbiItem) : bool := forallb wf_item abi.

(** The parameters of an entry ([[]] when the list is absent). *)
Definition inputs_of (item : AbiItem) : list AbiInput :=
  default [] (item_inputs item).

(** *** Integer type tags with their declared width *)

Definition digit_value (c : ascii) : option N :=
  let n := N_of_ascii c in
  if ((48 <=? n) && (n <=? 57))%N then Some (n - 48)%N else None.

Fixpoint decimal (s : string) (acc : N) : option N :=
  match s with
  | EmptyString => Some acc
  | String c r =>
      match digit_value c with
      | Some d => decimal r (acc * 10 + d)%N
      | None => None
      end
  end.

(** [uint<M>] and [int<M>] with [M] a multiple of 8 between 8 and 256:
    signedness and declared width. *)
Definition int_tag (ty : string) : option (bool * Z) :=
  let parse (signed : bool) (digits : string) :=
    match digits with
    | EmptyString => None
    | _ =>
        match decimal digits 0%N with
        | Some m =>
            if ((8 <=? m) && (m <=? 256) && (m mod 8 =? 0))%N
            then Some (signed, Z.of_N m) else None
        | None => None
        end
    end in
  if String.prefix "uint" ty then parse false (substring_from 4 ty)
  else if String.prefix "int" ty then parse true (substring_from 3 ty)
  else None.

Definition is_integer_input (input : AbiInput) : bool :=
  match input_type input with
  | Some ty => match int_tag ty with Some _ => true | None => false end
  | None => false
  end.

(** Minimum and maximum representable value of a declared integer type. *)
Definition min_value (tag : bool * Z) : Z :=
  if tag.1 then (- 2 ^ (tag.2 - 1))%Z else 0%Z.

Definition max_value (tag : bool * Z) : Z :=
  if tag.1 then (2 ^ (tag.2 - 1) - 1)%Z else (2 ^ tag.2 - 1)%Z.

Section Rules.
Context {RT : Runtime}.

(** The boundary value as the specification words it: the extreme of the
    declared width and signedness, the safe value for other parameters. *)
Definition declared_boundary_value (b : Boundary) (input : AbiInput) : ArgVal :=
  match input_type input with
  | Some ty =>
      match int_tag ty with
      | Some tag =>
          VStr (pretty (match b with
                        | Bmin => min_value tag
                        | Bmax => max_value tag
                        end))
      | None => safe_value (Some ty)
      end
  | None => safe_value None
  end.

(** The boundary value the generator uses: the extremes of 256 bits for
    every tag that starts with [uint] or [int], whatever follows. *)
Definition wide_boundary_value (b : Boundary) (input : AbiInput) : ArgVal :=
  match input_type input with
  | Some ty =>
      if String.prefix "uint" ty then
        VStr (pretty (match b with Bmin => 0%Z | Bmax => (2 ^ 256 - 1)%Z end))
      else if String.prefix "int" ty then
        VStr (pretty (match b with
                      | Bmin => (- 2 ^ 255)%Z
                      | Bmax => (2 ^ 255 - 1)%Z
                      end))
      else safe_value (Some ty)
  | None => safe_value None
  end.

Definition has_int_prefix (input : AbiInput) : bool :=
  match input_type input with
  | Some ty => String.prefix "uint" ty || String.prefix "int" ty
  | None => false
  end.






(** [synthesize] succeeds with [cases], made of one segment per schema
    entry, in schema order, followed by the per-schema cases [tail]. *)
Definition synthesizes (abi : list AbiItem) (address : string) (s : rt)
    (cases : list TestCase) (segs : list (list TestCase))
    (tail : list TestCase) : Prop :=
  (generateTestCases abi address s).1 = Ok cases
  /\ cases = concat segs ++ tail
  /\ length segs = length abi
  /\ Forall (fun tc => kind tc = Some IntegrationCase) tail.

(** Per-entry containment as the specification words it: synthesis
    succeeds and yields the cases of the well-formed entries, as if the
    malformed ones were absent. *)
Definition containment_claim (abi : list AbiItem) (address : string) (s : rt)
  : Prop :=
  exists cases,
    (generateTestCases abi address s).1 = Ok cases
    /\ Ok (map Content.content cases)
       = Content.contents (List.filter wf_item abi) address.

End Rules.
End Spec.

(** ** The vocabulary of the specification: execution *)

Module ExecSpec.
Import TestExecutor.
Section Execution.
Context {RT : Runtime} {CC : ChainClient}.

(** The step [st], started on endpoint [p] with the network in state [n],
    raises [e] after [k] lines were logged for it: while the contract
    handle is built ([k = 0]), or during the submission or its
    confirmation ([k = 1]). *)
Inductive step_fault (p : string) (n : chain) (st : TestStep) (e : JsError)
  : nat -> Prop :=
  | fault_construct :
      action st = "CONTRACT_CALL" ->
      new_Contract p (contractAddress (params st)) (method (params st)) = Throw e ->
      step_fault p n st e 0
  | fault_call c :
      action st = "CONTRACT_CALL" ->
      new_Contract p (contractAddress (params st)) (method (params st)) = Ok c ->
      (contract_call c (method (params st)) (args (params st)) n).1 = Throw e ->
      step_fault p n st e 1
  | fault_wait c tx n' :
      action st = "CONTRACT_CALL" ->
      new_Contract p (contractAddress (params st)) (method (params st)) = Ok c ->
      contract_call c (method (params st)) (args (params st)) n = (Ok tx, n') ->
      (tx_wait tx n').1 = Throw e ->
      step_fault p n st e 1.

(** Every step of [l] completes without fault when run in order from the
    world [w]. *)
Fixpoint all_complete (l : list TestStep) (w : World) : Prop :=
  match l with
  | [] => True
  | st :: r =>
      (run_step st (w, [])).1 = Ok tt
      /\ all_complete r (run_step st (w, [])).2.1
  end.

(** Two worlds that offer the same endpoint and network state. *)
Definition same_chain (w w' : World) : Prop :=
  provider w = provider w' /\ net w = net w'.

(** The submission of the step [st]. *)
Definition submission_of (st : TestStep) : Submission :=
  mkSubmission (contractAddress (params st)) (method (params st))
               (args (params st)).

(** The lines logged for a case whose first step [st] raises [e] after
    [k] lines of its own. *)
Definition fault_log (tc : TestCase) (st : TestStep) (e : JsError) (k : nat)
  : list string :=
  ["Starting test: " +:+ name tc]
  ++ match k with
     | O => []
     | S _ => ["Executing contract call: " +:+ tpl (method (params st))]
     end
  ++ ["Error: " +:+ message e].

(** The test-case object [tc] after the driver has recorded an outcome. *)
Definition settled (tc : TestCase) (st : Status) (r : option string) : TestCase :=
  mkCase (id tc) (name tc) (description tc) (steps tc) (expectedResult tc) r st.

(** A case in a terminal state. *)
Definition terminal (tc : TestCase) : Prop :=
  status tc = passed \/ status tc = failed.

(** The outcome of a case whose first step faults, as the specification
    words it, with the number of log lines as a parameter. *)
Definition first_fault_claim (log_lines : nat) (ref : nat) (tc : TestCase)
    (e : JsError) (w : World) : Prop :=
  (exists r w',
     executeTest ref w = (Ok r, w')
     /\ success r = false /\ error r = Some (message e)
     /\ length (logs r) = log_lines
     /\ length (submitted w') <= length (submitted w) + 1)
  /\ forall updatedTests,
       heap (iteration updatedTests ref w).2 !! ref
       = Some (settled tc failed (Some (message e))).
End Execution.
End ExecSpec.

(** ** Further vocabulary: the shape of synthesized cases *)

Module Shape.
Import Spec.
Section Shapes.
Context {RT : Runtime}.

(** A step synthesized for the entry [item]: a contract call of that
    function at the target address, with one argument per parameter. *)
Definition step_shape (address : string) (item : AbiItem) (st : TestStep) : Prop :=
  action st = "CONTRACT_CALL"
  /\ contractAddress (params st) = address
  /\ method (params st) = item_name item
  /\ length (args (params st)) = length (inputs_of item)
  /\ String.prefix "step-" (step_id st) = true.

(** The prefix of the identifier of a case of kind [k]. *)
Definition id_prefix (k : Kind) : string :=
  match k with
  | ReadCase => "view-"
  | WriteCase => "write-"
  | BoundaryCase => "boundary-"
  | FuzzCase => "fuzz-"
  | IntegrationCase => "integration-"
  end.

(** A freshly synthesized case: pending, without result, and with an
    identifier that tells its kind. *)
Definition fresh_case (tc : TestCase) : Prop :=
  status tc = pending /\ actualResult tc = None
  /\ exists k, kind tc = Some k /\ String.prefix (id_prefix k) (id tc) = true.

(** A case synthesized for the entry [item]. *)
Definition case_shape (address : string) (item : AbiItem) (tc : TestCase) : Prop :=
  fresh_case tc
  /\ (length (steps tc) = 1 \/ length (steps tc) = 2)%nat
  /\ Forall (step_shape address item) (steps tc).

(** An integration case: a step for a write entry, then one for a read
    entry of the schema. *)
Definition integration_shape (abi : list AbiItem) (address : string)
    (tc : TestCase) : Prop :=
  fresh_case tc
  /\ exists w r s1 s2,
       In w abi /\ In r abi /\ is_write w = true /\ is_read r = true
       /\ steps tc = [s1; s2]
       /\ step_shape address w s1 /\ step_shape address r s2.

(** The number of cases an entry contributes. *)
Definition cases_of_item (item : AbiItem) : nat :=
  if is_function item then
    1 + (if existsb has_int_prefix (inputs_of item) then 1 else 0)
      + (if (0 <? length (inputs_of item))%nat then 1 else 0)
  else 0.

(** The number of cases of a schema, rule by rule. *)
Definition case_count (abi : list AbiItem) : nat :=
  list_sum (map cases_of_item abi)
  + (if existsb is_write abi && existsb is_read abi then 1 else 0).

(** The exception a malformed function entry provokes. *)
Definition fault_of_item (item : AbiItem) : JsError :=
  match item_inputs item with
  | None => TypeError "Cannot read properties of undefined (reading 'map')"
  | Some _ =>
      TypeError "Cannot read properties of undefined (reading 'startsWith')"
  end.

(** What a sampled argument looks like for a parameter, when
    [Math.floor(Math.random() * n)] lies in [[0, n)]. *)
Definition fuzz_shape (input : AbiInput) (v : ArgVal) : Prop :=
  let ty := input_type input in
  if decide (ty = Some "uint256") then
    exists k, (0 <= k < 1000)%Z /\ v = VStr (pretty (k * 10 ^ 18)%Z)
  else if decide (ty = Some "uint8") then
    exists k, (0 <= k < 256)%Z /\ v = VStr (pretty k)
  else if decide (ty = Some "bool") then exists b, v = VBool b
  else if decide (ty = Some "bytes") then exists bs, v = VBytes bs
  else if bool_decide (ty = Some "address") || bool_decide (ty = Some "string")
          || bool_decide (ty = Some "bytes32")
    then exists str, v = VStr str
  else v = VStr "0".
End Shapes.
End Shape.

(** ** Further vocabulary: runs of the executor and the handlers of [App] *)

Module Batch.
Import TestExecutor ExecSpec.

(** The [networks] list of [App]: the identifiers the selector offers,
    with their display names. *)
Definition app_networks : list (string * string) :=
  [ ("mainnet", "Ethereum Mainnet");
    ("goerli", "Goerli Testnet");
    ("sepolia", "Sepolia Testnet");
    ("polygon", "Polygon Mainnet");
    ("mumbai", "Mumbai Testnet") ].

(** The property names every object literal inherits: for these,
    [networks[network]] is not [undefined] although the table has no such
    key of its own. *)
Definition inherited_keys : list string :=
  [ "constructor"; "__proto__"; "hasOwnProperty"; "isPrototypeOf";
    "propertyIsEnumerable"; "toLocaleString"; "toString"; "valueOf";
    "__defineGetter__"; "__defineSetter__"; "__lookupGetter__";
    "__lookupSetter__" ].

Section Runs.
Context {RT : Runtime} {CC : ChainClient}.

(** [step.action === 'CONTRACT_CALL'] *)
Definition is_call (st : TestStep) : bool :=
  bool_decide (action st = "CONTRACT_CALL").

(** The submissions of the contract-call steps of a list, in order. *)
Definition calls_of (l : list TestStep) : list Submission :=
  map submission_of (List.filter is_call l).

(** The submissions a faulting step makes: none while the contract handle
    is built, its own afterwards. *)
Definition fault_calls (st : TestStep) (k : nat) : list Submission :=
  match k with
  | O => []
  | S _ => [submission_of st]
  end.

(** Two worlds with the same React state and the same provider. *)
Definition same_ui (w w' : World) : Prop :=
  provider w' = provider w
  /\ ui_testCases w' = ui_testCases w
  /\ ui_error w' = ui_error w
  /\ ui_isExecuting w' = ui_isExecuting w
  /\ ui_isValidContract w' = ui_isValidContract w.



(** [handleGenerateTests] of [App]. [JSON.parse] is taken as a function
    from the text to the parsed array of entries, absent when it raises;
    the objects of the synthesized cases are stored at fresh locations
    of the heap, in order. *)
Fixpoint store_cases (cases : list TestCase) (h : gmap nat TestCase)
  : list nat * gmap nat TestCase :=
  match cases with
  | [] => ([], h)
  | c :: r =>
      let l := fresh (dom h) in
      let (ls, h') := store_cases r (<[l := c]> h) in
      (l :: ls, h')
  end.

Record AppState : Type := mkApp {
  app_world : World;
  isGenerating : bool
}.

Definition handleGenerateTests (JSON_parse : string -> option (list AbiItem))
    (abi contractAddress : string) (a : AppState) : AppState :=
  let w := set_error "" (app_world a) in
  match JSON_parse abi with
  | None =>
      mkApp (set_error "Invalid ABI format. Please provide a valid JSON ABI." w)
            false
  | Some parsedAbi =>
      match AITestGenerator.generateTestCases parsedAbi contractAddress (clock w) with
      | (Ok cases, c) =>
          let (refs, h) := store_cases cases (heap w) in
          mkApp (set_testCases refs (set_heap h (set_clock c w))) false
      | (Throw e, c) => mkApp (set_error (message e) (set_clock c w)) false
      end
  end.
End Runs.
End Batch.

(** ** Further examples *)

Module MoreSim.
Import SimChain.

(** a case whose second step is rejected by the network *)
Definition late_revert_case : TestCase :=
  mkCase "case-4" "Late revert" ""
         [call_of "approve"; call_of "revertMe"; call_of "transfer"]
         "" None pending.

Definition late_revert_world : @TestExecutor.World Sim.runtime client :=
  world {[ 0%nat := late_revert_case ]}.

Definition mixed_world : @TestExecutor.World Sim.runtime client :=
  world {[ 0%nat := passing_case; 1%nat := reverting_case; 2%nat := idle_case ]}.

(** A stand-in for [JSON.parse] on three texts. *)
Definition sim_parse (text : string) : option (list AbiItem) :=
  if String.eqb text "token" then Some ex_token
  else if String.eqb text "broken" then Some [ex_balanceOf; ex_no_inputs]
  else None.

Definition empty_app : @Batch.AppState Sim.runtime client :=
  Batch.mkApp (world ∅) false.
End MoreSim.

(** ** Proof automation for runs of the generator *)

Ltac unfold_se :=
  unfold random_suffix in *; unfold now, random in *;
  unfold SE.bind, SE.ret, SE.eff, SE.lift, SE.throw in *.

Ltac step_effects :=
  repeat match goal with
         | |- context [Date_now ?s] => destruct (Date_now s)
         | |- context [Math_random ?s] => destruct (Math_random s)
         | |- context [Wallet_createRandom_address ?s] =>
             destruct (Wallet_createRandom_address s)
         | |- context [ethers_randomBytes ?n ?s] =>
             destruct (ethers_randomBytes n s)
         end.

(** * Properties *)

(** ** The generator run against its structural content *)

Section GeneratorFacts.
Context {RT : Runtime}.
Import Content.

Lemma Ok_inj {A} (a b : A) : Ok a = Ok b -> a = b.
Proof. congruence. Qed.

Lemma prefix_append (p x : string) : String.prefix p (p +:+ x) = true.
Proof.
  induction p as [|c p IH]; simpl.
  - by destruct x.
  - by destruct (ascii_dec c c).
Qed.

Lemma is_fuzz_name_fuzz (x : string) : is_fuzz_name ("Fuzzing Test: " +:+ x) = true.
Proof. apply prefix_append. Qed.

Lemma fuzz_value_ok (input : AbiInput) (s : rt) :
  exists v s', fuzz_value input s = (Ok v, s').
Proof.
  unfold fuzz_value.
  repeat case_decide; unfold_se; step_effects; eauto.
Qed.

Lemma generateFuzzedArgs_ok (l : list AbiInput) (s : rt) :
  exists vs s', generateFuzzedArgs (Some l) s = (Ok vs, s').
Proof.
  simpl. revert s.
  induction l as [|input l IH]; intros s; simpl.
  - by eexists _, _.
  - unfold SE.bind.
    destruct (fuzz_value_ok input s) as (v & s1 & ->).
    destruct (IH s1) as (vs & s2 & ->).
    by eexists _, _.
Qed.

Lemma createViewFunctionTest_content item address s :
  omap content (createViewFunctionTest item address s).1
  = omap (view_content item address) (generateSafeArgs (item_inputs item)).
Proof.
  unfold createViewFunctionTest. unfold_se. step_effects.
  by destruct (generateSafeArgs (item_inputs item)).
Qed.

Lemma createWriteFunctionTest_content item address s :
  omap content (createWriteFunctionTest item address s).1
  = omap (write_content item address) (generateSafeArgs (item_inputs item)).
Proof.
  unfold createWriteFunctionTest. unfold_se. step_effects.
  by destruct (generateSafeArgs (item_inputs item)).
Qed.

Lemma createBoundaryTest_content item address s :
  omap content (createBoundaryTest item address s).1
  = obind (generateBoundaryArgs (item_inputs item) Bmin) (fun lo =>
    obind (generateBoundaryArgs (item_inputs item) Bmax) (fun hi =>
    Ok (boundary_content item address lo hi))).
Proof.
  unfold createBoundaryTest. unfold_se. step_effects.
  destruct (generateBoundaryArgs (item_inputs item) Bmin); [|done].
  simpl. step_effects.
  by destruct (generateBoundaryArgs (item_inputs item) Bmax).
Qed.

Lemma createFuzzingTest_content item address l s :
  item_inputs item = Some l ->
  omap content (createFuzzingTest item address s).1
  = Ok (fuzz_content item address).
Proof.
  intros Hl. unfold createFuzzingTest. rewrite Hl. unfold_se. step_effects.
  match goal with
  | |- context [generateFuzzedArgs (Some l) ?s'] =>
      destruct (generateFuzzedArgs_ok l s') as (vs & s2 & ->)
  end.
  unfold content, fuzz_content; cbn [omap fst name steps map].
  by rewrite is_fuzz_name_fuzz.
Qed.

Lemma loop_body_run item address acc s :
  extends acc (loop_body item address acc s).1 (item_contents item address).
Proof.
  unfold loop_body, item_contents.
  destruct (is_function item); cycle 1.
  { simpl. exists []. by rewrite app_nil_r. }
  unfold SE.bind at 1.
  assert (exists o1 s1,
    (if is_view_or_pure item
     then let* c := createViewFunctionTest item address in SE.ret (acc ++ [c])
     else let* c := createWriteFunctionTest item address in SE.ret (acc ++ [c])) s
    = (o1, s1) /\
    match o1 with
    | Ok r => exists c safe, r = acc ++ [c]
        /\ generateSafeArgs (item_inputs item) = Ok safe
        /\ content c = (if is_view_or_pure item then view_content item address safe
                        else write_content item address safe)
    | Throw e => generateSafeArgs (item_inputs item) = Throw e
    end) as (o1 & s1 & -> & H1).
  { destruct (is_view_or_pure item); unfold SE.bind, SE.ret.
    - pose proof (createViewFunctionTest_content item address s) as Hc.
      destruct (createViewFunctionTest item address s) as [[c|e] s1];
        destruct (generateSafeArgs (item_inputs item)) as [safe|e'];
        simpl in Hc; try discriminate; eexists _, _; (split; [done|]).
      + apply Ok_inj in Hc. simpl. by exists c, safe.
      + congruence.
    - pose proof (createWriteFunctionTest_content item address s) as Hc.
      destruct (createWriteFunctionTest item address s) as [[c|e] s1];
        destruct (generateSafeArgs (item_inputs item)) as [safe|e'];
        simpl in Hc; try discriminate; eexists _, _; (split; [done|]).
      + apply Ok_inj in Hc. simpl. by exists c, safe.
      + congruence. }
  destruct o1 as [r|e]; [|by rewrite H1].
  destruct H1 as (c & safe & -> & -> & Hc). simpl obind.
  destruct (item_inputs item) as [l|] eqn:Hl; [|done].
  unfold SE.bind, SE.lift. simpl inputs_some_integer. simpl inputs_length.
  destruct (some_integer l) as [numeric|e]; [|done]. simpl obind.
  destruct numeric.
  - pose proof (createBoundaryTest_content item address s1) as Hb.
    rewrite Hl in Hb. unfold SE.ret. simpl generateBoundaryArgs in *.
    destruct (createBoundaryTest item address s1) as [[b|e] s2]; simpl in Hb;
      destruct (omap_list (boundary_value Bmin) l) as [lo|]; simpl in *;
      try discriminate; try congruence;
      destruct (omap_list (boundary_value Bmax) l) as [hi|]; simpl in *;
      try discriminate; try congruence.
    apply Ok_inj in Hb.
    destruct (0 <? length l)%nat.
    + pose proof (createFuzzingTest_content item address l s2 Hl) as Hf.
      destruct (createFuzzingTest item address s2) as [[f|e] s3];
        simpl in Hf; [|done].
      apply Ok_inj in Hf.
      exists [c; b; f]. rewrite <- !app_assoc. simpl. by rewrite Hc, Hb, Hf.
    + simpl. exists [c; b]. rewrite <- !app_assoc. simpl. by rewrite Hc, Hb.
  - unfold SE.ret. simpl obind.
    destruct (0 <? length l)%nat.
    + pose proof (createFuzzingTest_content item address l s1 Hl) as Hf.
      destruct (createFuzzingTest item address s1) as [[f|e] s3];
        simpl in Hf; [|done].
      apply Ok_inj in Hf.
      exists [c; f]. rewrite <- !app_assoc. simpl. by rewrite Hc, Hf.
    + simpl. exists [c]. simpl. by rewrite Hc.
Qed.

Lemma segments_contents abi address segs :
  segments abi address segs ->
  items_contents abi address = Ok (map content (concat segs)).
Proof.
  induction 1 as [|item seg abi segs Hi _ IH]; simpl; [done|].
  by rewrite Hi, IH, map_app.
Qed.

Lemma for_of_run abi address acc s :
  match (for_of abi address acc s).1 with
  | Ok r => exists segs, r = acc ++ concat segs /\ segments abi address segs
  | Throw e => items_contents abi address = Throw e
  end.
Proof.
  revert acc s.
  induction abi as [|item abi IH]; intros acc s; simpl.
  - exists []. split; [by rewrite app_nil_r | constructor].
  - unfold SE.bind.
    pose proof (loop_body_run item address acc s) as Hb.
    destruct (loop_body item address acc s) as [[r|e] s1]; simpl in Hb.
    + destruct Hb as (seg & -> & Hseg).
      specialize (IH (acc ++ seg) s1).
      destruct (for_of abi address (acc ++ seg) s1) as [[r'|e] s2]; simpl in *.
      * destruct IH as (segs & -> & Hsegs).
        exists (seg :: segs). split; [by rewrite <- app_assoc|].
        by constructor.
      * by rewrite Hseg, IH.
    + by rewrite Hb.
Qed.

Lemma generateIntegrationTests_run abi address s :
  extends [] (generateIntegrationTests abi address s).1
          (integration_contents abi address).
Proof.
  unfold generateIntegrationTests, integration_contents.
  destruct (List.filter is_write abi) as [|w ws]; [by exists []|].
  destruct (List.filter is_read abi) as [|r rs]; [by exists []|].
  unfold_se. step_effects.
  destruct (generateSafeArgs (item_inputs w)) as [wargs|]; [|done].
  simpl. step_effects.
  destruct (generateSafeArgs (item_inputs r)) as [rargs|]; [|done].
  simpl. by eexists [_].
Qed.

Lemma generateTestCases_run abi address s :
  match (generateTestCases abi address s).1 with
  | Ok r => exists segs integ,
      r = concat segs ++ integ /\ segments abi address segs
      /\ integration_contents abi address = Ok (map content integ)
  | Throw e => contents abi address = Throw e
  end.
Proof.
  unfold generateTestCases, contents, SE.bind.
  pose proof (for_of_run abi address [] s) as Hf.
  destruct (for_of abi address [] s) as [[r|e] s1]; simpl in Hf.
  - destruct Hf as (segs & -> & Hsegs). simpl.
    rewrite (segments_contents _ _ _ Hsegs). simpl.
    pose proof (generateIntegrationTests_run abi address s1) as Hi.
    destruct (generateIntegrationTests abi address s1) as [[integ|e] s2];
      simpl in *.
    + destruct Hi as (seg & -> & Hseg). by exists segs, seg.
    + by rewrite Hi.
  - by rewrite Hf.
Qed.

Lemma generateTestCases_content abi address s :
  omap (map content) (generateTestCases abi address s).1 = contents abi address.
Proof.
  pose proof (generateTestCases_run abi address s) as Hr.
  destruct ((generateTestCases abi address s).1) as [r|e]; simpl; [|done].
  destruct Hr as (segs & integ & -> & Hsegs & Hi).
  unfold contents.
  by rewrite (segments_contents _ _ _ Hsegs), Hi, map_app.
Qed.
End GeneratorFacts.

(** ** From structural content to the rules of the specification *)

Section RuleFacts.
Context {RT : Runtime}.
Import Content Spec.






Lemma kindc_integration w r address wargs rargs :
  kindc (integration_content w r address wargs rargs) = Some IntegrationCase.
Proof. reflexivity. Qed.

Lemma some_integer_typed l :
  forallb has_type l = true -> some_integer l = Ok (existsb has_int_prefix l).
Proof.
  induction l as [|input l IH]; simpl; [done|].
  unfold has_type at 1, has_int_prefix at 1.
  destruct (input_type input) as [ty|]; [|done]. simpl.
  intros Hl. destruct (String.prefix "uint" ty || String.prefix "int" ty); auto.
Qed.

Lemma some_integer_false l :
  some_integer l = Ok false -> forallb has_type l = true.
Proof.
  induction l as [|input l IH]; simpl; [done|].
  unfold has_type at 1.
  destruct (input_type input) as [ty|]; [|done]. simpl.
  destruct (String.prefix "uint" ty || String.prefix "int" ty); [done|auto].
Qed.

Lemma boundary_value_typed b input :
  has_type input = true ->
  boundary_value b input = Ok (wide_boundary_value b input).
Proof.
  unfold has_type, boundary_value, wide_boundary_value.
  destruct (input_type input) as [ty|] eqn:Hty; [|done]. intros _.
  destruct (String.prefix "uint" ty); [by destruct b|].
  destruct (String.prefix "int" ty); [by destruct b|].
  simpl. by rewrite Hty.
Qed.

Lemma generateBoundaryArgs_typed b l :
  forallb has_type l = true ->
  generateBoundaryArgs (Some l) b = Ok (map (wide_boundary_value b) l).
Proof.
  simpl. induction l as [|input l IH]; simpl; [done|].
  intros [Hi Hl]%andb_prop.
  by rewrite (boundary_value_typed _ _ Hi), (IH Hl).
Qed.

Lemma generateBoundaryArgs_untyped b l :
  forallb has_type l = false -> is_ok (generateBoundaryArgs (Some l) b) = false.
Proof.
  simpl. induction l as [|input l IH]; simpl; [done|].
  destruct (has_type input) eqn:Hi; simpl.
  - intros Hl. rewrite (boundary_value_typed _ _ Hi). simpl.
    specialize (IH Hl). by destruct (omap_list (boundary_value b) l).
  - intros _. unfold boundary_value. unfold has_type in Hi.
    by destruct (input_type input).
Qed.

(** The content of the cases of a well-formed entry. *)
Lemma item_contents_wf item address :
  wf_item item = true ->
  item_contents item address =
  Ok (if is_function item then
        [ if is_view_or_pure item
          then view_content item address
                 (map (fun i => safe_value (input_type i)) (inputs_of item))
          else write_content item address
                 (map (fun i => safe_value (input_type i)) (inputs_of item)) ]
        ++ (if existsb has_int_prefix (inputs_of item)
            then [ boundary_content item address
                     (map (wide_boundary_value Bmin) (inputs_of item))
                     (map (wide_boundary_value Bmax) (inputs_of item)) ]
            else [])
        ++ (if (0 <? length (inputs_of item))%nat
            then [fuzz_content item address] else [])
      else []).
Proof.
  unfold wf_item, item_contents, inputs_of.
  destruct (is_function item); [|done].
  destruct (item_inputs item) as [l|]; [|done]. intros Hl. simpl.
  rewrite (some_integer_typed _ Hl). simpl.
  destruct (existsb has_int_prefix l); [|done].
  pose proof (generateBoundaryArgs_typed Bmin l Hl) as Hlo.
  pose proof (generateBoundaryArgs_typed Bmax l Hl) as Hhi.
  simpl in Hlo, Hhi. by rewrite Hlo, Hhi.
Qed.

Lemma item_contents_not_wf item address :
  wf_item item = false -> is_ok (item_contents item address) = false.
Proof.
  unfold wf_item, item_contents.
  destruct (is_function item); [|done].
  destruct (item_inputs item) as [l|]; [|done]. intros Hl. simpl.
  destruct (some_integer l) as [[]|] eqn:Hs; simpl; [| |done].
  - pose proof (generateBoundaryArgs_untyped Bmin l Hl) as Hlo. simpl in Hlo.
    by destruct (omap_list (boundary_value Bmin) l).
  - apply some_integer_false in Hs. congruence.
Qed.

Lemma item_contents_ok item address :
  is_ok (item_contents item address) = wf_item item.
Proof.
  destruct (wf_item item) eqn:Hw.
  - by rewrite (item_contents_wf _ _ Hw).
  - by apply item_contents_not_wf.
Qed.

Lemma items_contents_ok abi address :
  is_ok (items_contents abi address) = wf_abi abi.
Proof.
  induction abi as [|item abi IH]; simpl; [done|].
  rewrite <- item_contents_ok with (address := address), <- IH.
  destruct (item_contents item address); simpl; [|done].
  by destruct (items_contents abi address).
Qed.

Lemma wf_abi_filter abi p item rest :
  wf_abi abi = true -> List.filter p abi = item :: rest -> wf_item item = true.
Proof.
  intros Hwf Hf.
  assert (In item (List.filter p abi)) as [Hin _]%filter_In
    by (rewrite Hf; by left).
  unfold wf_abi in Hwf. rewrite forallb_forall in Hwf. auto.
Qed.

Lemma safe_args_wf item :
  is_function item = true -> wf_item item = true ->
  generateSafeArgs (item_inputs item)
  = Ok (map (fun i => safe_value (input_type i)) (inputs_of item)).
Proof.
  unfold wf_item, inputs_of. intros ->.
  by destruct (item_inputs item).
Qed.

Lemma is_write_function item : is_write item = true -> is_function item = true.
Proof. unfold is_write. by intros [[? ?]%andb_prop ?]%andb_prop. Qed.

Lemma is_read_function item : is_read item = true -> is_function item = true.
Proof. unfold is_read. by intros [? ?]%andb_prop. Qed.

Lemma filter_head {A} (p : A -> bool) l x rest :
  List.filter p l = x :: rest -> p x = true.
Proof.
  intros Hf.
  assert (In x (List.filter p l)) as [_ Hp]%filter_In by (rewrite Hf; by left).
  done.
Qed.

Lemma find_filter {A} (p : A -> bool) l :
  List.find p l = List.hd_error (List.filter p l).
Proof.
  induction l as [|x l IH]; simpl; [done|]. by destruct (p x).
Qed.

(** The content of the integration cases of a well-formed schema. *)
Lemma integration_contents_wf abi address :
  wf_abi abi = true ->
  integration_contents abi address =
  Ok (match List.find is_write abi, List.find is_read abi with
      | Some w, Some r =>
          [ integration_content w r address
              (map (fun i => safe_value (input_type i)) (inputs_of w))
              (map (fun i => safe_value (input_type i)) (inputs_of r)) ]
      | _, _ => []
      end).
Proof.
  intros Hwf. unfold integration_contents. rewrite !find_filter.
  destruct (List.filter is_write abi) as [|w ws] eqn:Hw; [done|].
  destruct (List.filter is_read abi) as [|r rs] eqn:Hr; [done|]. simpl.
  rewrite (safe_args_wf w), (safe_args_wf r); eauto using wf_abi_filter,
    is_write_function, is_read_function, filter_head.
Qed.

Lemma contents_ok abi address : is_ok (contents abi address) = wf_abi abi.
Proof.
  unfold contents. rewrite <- (items_contents_ok abi address).
  destruct (items_contents abi address) eqn:Hi; simpl; [|done].
  assert (wf_abi abi = true) as Hwf
    by (rewrite <- (items_contents_ok abi address), Hi; done).
  rewrite (integration_contents_wf _ _ Hwf). done.
Qed.

(** Synthesis succeeds exactly on well-formed schemas. *)
Lemma generateTestCases_ok abi address s :
  is_ok (generateTestCases abi address s).1 = wf_abi abi.
Proof.
  rewrite <- (contents_ok abi address), <- (generateTestCases_content _ _ s).
  by destruct ((generateTestCases abi address s).1).
Qed.
End RuleFacts.

Section SegmentFacts.
Context {RT : Runtime}.
Import Content Spec.



Lemma uniform_content k l cs :
  map content l = cs -> Forall (fun c => kindc c = Some k) cs ->
  Forall (fun tc => kind tc = Some k) l.
Proof.
  intros <-. induction l as [|tc l IH]; simpl; [constructor|].
  intros Hf. apply Forall_cons_1 in Hf as [Hk Hl]. constructor; auto.
Qed.








End SegmentFacts.

Section RuleProofs.
Context {RT : Runtime}.
Import Content Spec.





Lemma tail_integration abi address tail :
  wf_abi abi = true ->
  integration_contents abi address = Ok (map content tail) ->
  Forall (fun tc => kind tc = Some IntegrationCase) tail.
Proof.
  intros Hwf. rewrite (integration_contents_wf _ _ Hwf). intros Hc%Ok_inj.
  eapply uniform_content; [symmetry; exact Hc|].
  destruct (List.find is_write abi), (List.find is_read abi);
    repeat constructor.
Qed.

(** A well-formed schema is synthesized into one segment per entry and a
    tail of integration cases. *)
Lemma synthesizes_wf abi address s :
  wf_abi abi = true ->
  exists cases segs tail,
    synthesizes abi address s cases segs tail
    /\ segments abi address segs
    /\ integration_contents abi address = Ok (map content tail).
Proof.
  intros Hwf.
  pose proof (generateTestCases_run abi address s) as Hr.
  pose proof (generateTestCases_ok abi address s) as Hok.
  destruct ((generateTestCases abi address s).1) as [r|e] eqn:Hg;
    [|simpl in Hok; congruence].
  destruct Hr as (segs & tail & -> & Hs & Ht).
  exists (concat segs ++ tail), segs, tail.
  repeat split; try done.
  - symmetry. by eapply Forall2_length.
  - by eapply tail_integration.
Qed.


End RuleProofs.

(** ** Synthesis: the claims of the specification *)

Section SynthesisClaims.
Context {RT : Runtime}.
Import Content Spec.

Lemma loop_body_not_function item address acc :
  is_function item = false -> loop_body item address acc = SE.ret acc.
Proof. unfold loop_body. by intros ->. Qed.

Lemma for_of_functions abi address acc s :
  for_of abi address acc s = for_of (List.filter is_function abi) address acc s.
Proof.
  revert acc s. induction abi as [|item abi IH]; intros acc s; simpl; [done|].
  destruct (is_function item) eqn:Hfun; simpl.
  - unfold SE.bind.
    destruct (loop_body item address acc s) as [[r|e] s1]; [apply IH|done].
  - rewrite (loop_body_not_function _ _ _ Hfun). apply IH.
Qed.

Lemma filter_functions (p : AbiItem -> bool) abi :
  (forall item, p item = true -> is_function item = true) ->
  List.filter p (List.filter is_function abi) = List.filter p abi.
Proof.
  intros Hp. induction abi as [|item abi IH]; simpl; [done|].
  destruct (is_function item) eqn:Hfun; simpl.
  - by rewrite IH.
  - destruct (p item) eqn:Hpi; [|done].
    apply Hp in Hpi. congruence.
Qed.

Lemma generateTestCases_functions abi address s :
  generateTestCases abi address s
  = generateTestCases (List.filter is_function abi) address s.
Proof.
  unfold generateTestCases, SE.bind.
  rewrite <- for_of_functions.
  destruct (for_of abi address [] s) as [[r|e] s1]; [|done].
  unfold generateIntegrationTests.
  by rewrite !filter_functions by auto using is_write_function, is_read_function.
Qed.

Lemma safe_value_default ty :
  ty <> "uint256" -> ty <> "uint8" -> ty <> "address" -> ty <> "string" ->
  ty <> "bool" -> ty <> "bytes" -> ty <> "bytes32" ->
  safe_value (Some ty) = VStr "0".
Proof.
  intros. unfold safe_value.
  repeat (case_decide; [congruence|]). done.
Qed.


(** Every declared integer type triggers the boundary case. *)
Lemma is_integer_has_prefix input :
  is_integer_input input = true -> has_int_prefix input = true.
Proof.
  unfold is_integer_input, has_int_prefix, int_tag.
  destruct (input_type input) as [ty|]; [|done].
  destruct (String.prefix "uint" ty); [done|].
  by destruct (String.prefix "int" ty).
Qed.

(** At a declared width of 256 bits the generator's extremes are the
    declared ones. *)
Lemma wide_is_declared_at_256 b input ty signed :
  input_type input = Some ty -> int_tag ty = Some (signed, 256%Z) ->
  wide_boundary_value b input = declared_boundary_value b input.
Proof.
  unfold wide_boundary_value, declared_boundary_value. intros -> Htag.
  rewrite Htag. unfold int_tag in Htag.
  destruct (String.prefix "uint" ty).
  - destruct (substring_from 4 ty); [done|].
    destruct (decimal _ _) as [m|]; [|done].
    destruct (_ && _ && _)%bool; [|done].
    injection Htag as <- _. by destruct b.
  - destruct (String.prefix "int" ty); [|done].
    destruct (substring_from 3 ty); [done|].
    destruct (decimal _ _) as [m|]; [|done].
    destruct (_ && _ && _)%bool; [|done].
    injection Htag as <- _. by destruct b.
Qed.



(** C2 (amended): entries that are not classified as functions are
    skipped, with no case and no effect on the other entries; a parameter
    with an unrecognised type tag receives the placeholder "0"; synthesis
    returns cases exactly when every function entry carries an inputs list
    whose parameters all carry a type tag, and raises otherwise, producing
    no case at all. *)
Theorem synthesis_fault_containment abi address s :
  generateTestCases abi address s
    = generateTestCases (List.filter is_function abi) address s
  /\ is_ok (generateTestCases abi address s).1 = wf_abi abi
  /\ (forall ty,
        ty ∉ ["uint256"; "uint8"; "address"; "string"; "bool"; "bytes"; "bytes32"] ->
        safe_value (Some ty) = VStr "0").
Proof.
  split; [apply generateTestCases_functions|].
  split; [apply generateTestCases_ok|].
  intros ty Hty. apply safe_value_default; intros ->; apply Hty;
    repeat (first [apply list_elem_of_here | apply list_elem_of_further]).
Qed.



(** C6: two runs of synthesis on the same schema and address, from any two
    states of the runtime, agree on the structural content of their
    results: names, descriptions, step counts, methods, and argument
    values outside fuzz cases; identifiers and fuzz arguments are not
    compared. *)
Theorem synthesis_content_deterministic abi address s1 s2 :
  omap (map content) (generateTestCases abi address s1).1
  = omap (map content) (generateTestCases abi address s2).1.
Proof. by rewrite !generateTestCases_content. Qed.
End SynthesisClaims.

(** ** The executor: frame and outcome of a run *)

Section ExecutorFacts.
Context {RT : Runtime} {CC : ChainClient}.
Import TestExecutor ExecSpec.

Lemma run_step_skip st s :
  action st <> "CONTRACT_CALL" -> run_step st s = (Ok tt, s).
Proof. intros Ha. unfold run_step. by case_decide. Qed.

Lemma run_steps_skip l s :
  Forall (fun st => action st <> "CONTRACT_CALL") l -> run_steps l s = (Ok tt, s).
Proof.
  induction 1 as [|st l Ha _ IH]; simpl; [done|].
  unfold SE.bind. by rewrite (run_step_skip _ _ Ha).
Qed.

(** What a step leaves untouched, and what it appends. *)
Lemma run_step_frame st w logs :
  let r := run_step st (w, logs) in
  heap r.2.1 = heap w /\ provider r.2.1 = provider w /\ clock r.2.1 = clock w
  /\ (submitted r.2.1 = submitted w
      \/ submitted r.2.1 = submitted w ++ [submission_of st]).
Proof.
  unfold run_step. case_decide; [|simpl; auto].
  unfold SE.bind, construct, log, submit, wait. simpl.
  destruct (new_Contract _ _ _) as [c|e]; simpl; [|auto].
  destruct (contract_call _ _ _ _) as [[tx|e] n]; simpl; [|auto].
  destruct (tx_wait _ _) as [[u|e] n']; simpl; auto.
Qed.

Lemma run_steps_heap l w logs : heap (run_steps l (w, logs)).2.1 = heap w.
Proof.
  revert w logs. induction l as [|st l IH]; intros w logs; simpl; [done|].
  unfold SE.bind.
  pose proof (run_step_frame st w logs) as (Hh & _).
  destruct (run_step st (w, logs)) as [[u|e] [w1 logs1]]; simpl in *; [|done].
  by rewrite IH.
Qed.

(** The lines already logged do not influence a step. *)
Lemma run_step_logs st w logs :
  run_step st (w, logs)
  = ((run_step st (w, [])).1,
     ((run_step st (w, [])).2.1, logs ++ (run_step st (w, [])).2.2)).
Proof.
  unfold run_step. case_decide; [|simpl; by rewrite app_nil_r].
  unfold SE.bind, construct, log, submit, wait. simpl.
  destruct (new_Contract _ _ _) as [c|e]; simpl; [|by rewrite app_nil_r].
  destruct (contract_call _ _ _ _) as [[tx|e] n]; simpl; [|done].
  destruct (tx_wait _ _) as [[u|e] n']; simpl; [|done].
  by rewrite <- app_assoc.
Qed.

(** The outcome of a step depends on the world through the endpoint and
    the network only. *)
Lemma run_step_same_chain st w w' :
  same_chain w w' ->
  (run_step st (w, [])).1 = (run_step st (w', [])).1
  /\ same_chain (run_step st (w, [])).2.1 (run_step st (w', [])).2.1.
Proof.
  intros [Hp Hn]. unfold run_step. case_decide; [|by simpl].
  unfold SE.bind, construct, log, submit, wait, same_chain. simpl.
  rewrite <- Hp, <- Hn.
  destruct (new_Contract _ _ _) as [c|e]; simpl; [|done].
  destruct (contract_call _ _ _ _) as [[tx|e] n]; simpl; [|done].
  destruct (tx_wait _ _) as [[u|e] n']; simpl; done.
Qed.

Lemma all_complete_same_chain l w w' :
  same_chain w w' -> all_complete l w -> all_complete l w'.
Proof.
  revert w w'. induction l as [|st l IH]; intros w w' Hs; simpl; [done|].
  destruct (run_step_same_chain st w w' Hs) as [Ho Hs'].
  intros [H1 H2]. split; [congruence|]. by eapply IH.
Qed.

Lemma run_steps_complete l w logs :
  all_complete l w -> (run_steps l (w, logs)).1 = Ok tt.
Proof.
  revert w logs. induction l as [|st l IH]; intros w logs; simpl; [done|].
  intros [H1 H2]. unfold SE.bind. rewrite run_step_logs, H1. by apply IH.
Qed.

(** A faulting step: the exception, the lines logged and the submissions
    made. *)
Lemma run_step_fault st w logs e k :
  step_fault (provider w) (net w) st e k ->
  exists w',
    run_step st (w, logs)
    = (Throw e,
       (w', logs ++ match k with
                    | O => []
                    | S _ => ["Executing contract call: " +:+ tpl (method (params st))]
                    end))
    /\ heap w' = heap w /\ clock w' = clock w
    /\ submitted w' = submitted w ++ match k with
                                     | O => []
                                     | S _ => [submission_of st]
                                     end.
Proof.
  intros Hf. unfold run_step.
  inversion Hf as [Ha Hc | c Ha Hc Hcall | c tx n' Ha Hc Hcall Hw]; subst;
    (case_decide; [|done]);
    unfold SE.bind, construct, log, submit, wait; simpl; rewrite Hc; simpl.
  - eexists. by rewrite !app_nil_r.
  - destruct (contract_call _ _ _ _) as [[tx|e'] n']; simpl in *; [done|].
    simplify_eq. by eexists.
  - rewrite Hcall. simpl.
    destruct (tx_wait tx n') as [[u|e'] n'']; simpl in *; [done|].
    simplify_eq. by eexists.
Qed.

(** [executeTest] never writes to the heap. *)
Lemma executeTest_heap ref w : heap (executeTest ref w).2 = heap w.
Proof.
  unfold executeTest. destruct (heap w !! ref) as [tc|]; [|done].
  unfold try_block, SE.bind, log. simpl.
  pose proof (run_steps_heap (steps tc) w ([] ++ ["Starting test: " +:+ name tc]))
    as Hh.
  destruct (run_steps _ _) as [[u|e] [w1 logs1]]; simpl in *;
    destruct (Date_now (clock w1)); by simpl.
Qed.

(** On a live reference [executeTest] returns a result. *)
Lemma executeTest_returns ref tc w :
  heap w !! ref = Some tc ->
  exists r w', executeTest ref w = (Ok r, w') /\ testCaseId r = id tc.
Proof.
  intros Hl. unfold executeTest. rewrite Hl.
  destruct (try_block tc (w, [])) as [[u|e] [w1 logs1]];
    destruct (Date_now (clock w1)); by eexists _, _.
Qed.

Lemma executeTest_complete ref tc w :
  heap w !! ref = Some tc -> all_complete (steps tc) w ->
  exists r w',
    executeTest ref w = (Ok r, w') /\ success r = true /\ error r = None.
Proof.
  intros Hl Hc. unfold executeTest. rewrite Hl.
  unfold try_block, SE.bind, log. simpl.
  pose proof (run_steps_complete (steps tc) w
                ([] ++ ["Starting test: " +:+ name tc]) Hc) as Hr.
  destruct (run_steps _ _) as [[u|e] [w1 logs1]]; simpl in *; [|done].
  destruct (Date_now (clock w1)). by eexists _, _.
Qed.

Lemma executeTest_fault ref tc st rest e k w :
  heap w !! ref = Some tc -> steps tc = st :: rest ->
  step_fault (provider w) (net w) st e k ->
  exists r w',
    executeTest ref w = (Ok r, w')
    /\ success r = false /\ error r = Some (message e)
    /\ logs r = fault_log tc st e k
    /\ submitted w' = submitted w ++ match k with
                                     | O => []
                                     | S _ => [submission_of st]
                                     end.
Proof.
  intros Hl Hs Hf. unfold executeTest. rewrite Hl.
  unfold try_block, SE.bind, log. rewrite Hs. simpl. unfold SE.bind.
  destruct (run_step_fault st w ["Starting test: " +:+ name tc] e k Hf)
    as (w1 & -> & Hh & Hc & Hsub).
  destruct (Date_now (clock w1)). eexists _, _. split; [done|]. simpl.
  repeat split; done.
Qed.

Lemma assign_status_live ref st tc w :
  heap w !! ref = Some tc ->
  assign_status ref st w
  = (Ok tt, set_heap (<[ref := settled tc st (actualResult tc)]> (heap w)) w).
Proof. intros Hl. unfold assign_status. by rewrite Hl. Qed.

Lemma assign_actualResult_live ref r tc w :
  heap w !! ref = Some tc ->
  assign_actualResult ref r w
  = (Ok tt, set_heap (<[ref := settled tc (status tc) r]> (heap w)) w).
Proof. intros Hl. unfold assign_actualResult. by rewrite Hl. Qed.

(** One iteration of the driver on a live reference: the test runs in the
    world where the case is marked as running, and the driver records
    the outcome in the object. *)
Lemma iteration_run updatedTests ref tc w :
  heap w !! ref = Some tc ->
  exists r w2,
    executeTest ref
      (set_testCases updatedTests
         (set_heap (<[ref := settled tc running (actualResult tc)]> (heap w)) w))
    = (Ok r, w2)
    /\ (iteration updatedTests ref w).1 = Ok tt
    /\ heap (iteration updatedTests ref w).2
       = <[ref := settled tc (if success r then passed else failed)
                          (if success r then Some "Test passed successfully"
                           else error r)]> (heap w).
Proof.
  intros Hl.
  set (w1 := set_testCases updatedTests _).
  assert (heap w1 !! ref = Some (settled tc running (actualResult tc))) as Hl1
    by (simpl; apply lookup_insert_eq).
  pose proof (executeTest_heap ref w1) as Hh.
  destruct (executeTest_returns ref _ w1 Hl1) as (r & w2 & Hr & _).
  rewrite Hr in Hh. simpl in Hh.
  exists r, w2. split; [done|].
  assert (heap w2 !! ref = Some (settled tc running (actualResult tc))) as Hl2
    by (rewrite Hh; apply lookup_insert_eq).
  assert (iteration updatedTests ref w
          = (Ok tt,
             set_testCases updatedTests
               (set_heap
                  (<[ref := settled tc (if success r then passed else failed)
                              (if success r then Some "Test passed successfully"
                               else error r)]> (heap w)) w2))) as ->.
  { unfold iteration, SE.bind, setTestCases.
    rewrite (assign_status_live _ _ _ _ Hl). cbv beta iota. fold w1.
    rewrite Hr. cbv beta iota.
    rewrite (assign_status_live _ _ _ _ Hl2). cbv beta iota.
    erewrite assign_actualResult_live by (simpl; apply lookup_insert_eq).
    simpl. unfold set_heap, set_testCases. simpl.
    by rewrite Hh, !insert_insert_eq. }
  done.
Qed.

(** The batch: every case of a batch of live references ends in a
    terminal state, and the handler never reports an exception. *)
Lemma iteration_heap updatedTests ref tc w :
  heap w !! ref = Some tc ->
  (iteration updatedTests ref w).1 = Ok tt
  /\ exists tc',
       terminal tc'
       /\ heap (iteration updatedTests ref w).2 = <[ref := tc']> (heap w).
Proof.
  intros Hl.
  destruct (iteration_run updatedTests ref tc w Hl) as (r & w2 & _ & Hok & Hh).
  split; [done|]. eexists. split; [|exact Hh].
  unfold terminal. simpl. destruct (success r); auto.
Qed.

Lemma for_i_terminal updatedTests refs w :
  Forall (fun r => is_Some (heap w !! r)) refs ->
  (for_i updatedTests refs w).1 = Ok tt
  /\ (forall r,
        r ∈ refs \/ (exists tc, heap w !! r = Some tc /\ terminal tc) ->
        exists tc, heap (for_i updatedTests refs w).2 !! r = Some tc /\ terminal tc)
  /\ (forall r, is_Some (heap w !! r) ->
                is_Some (heap (for_i updatedTests refs w).2 !! r)).
Proof.
  revert w. induction refs as [|ref refs IH]; intros w Hlive; simpl.
  - split; [done|]. split; [|done].
    intros r [Hin|Ht]; [|done]. by apply not_elem_of_nil in Hin.
  - apply Forall_cons_1 in Hlive as [[tc Hl] Hlive].
    destruct (iteration_heap updatedTests ref tc w Hl) as (Hok & tc' & Ht & Hh).
    unfold SE.bind.
    destruct (iteration updatedTests ref w) as [[u|e] w1]; simpl in *; [|done].
    assert (forall r, is_Some (heap w !! r) -> is_Some (heap w1 !! r)) as Hkeep.
    { intros r Hr. rewrite Hh.
      destruct (decide (ref = r)) as [->|Hne];
        [rewrite lookup_insert_eq | rewrite lookup_insert_ne]; eauto. }
    destruct (IH w1) as (Hok' & Hterm & Hlive').
    { eapply Forall_impl; [exact Hlive|]. intros r Hr. by apply Hkeep. }
    split; [done|]. split.
    + intros r Hr. apply Hterm.
      destruct (decide (ref = r)) as [->|Hne].
      * right. exists tc'. split; [|done]. by rewrite Hh, lookup_insert_eq.
      * destruct Hr as [Hin|(tc0 & Hl0 & Ht0)].
        -- left. apply elem_of_cons in Hin as [->|Hin]; [done|exact Hin].
        -- right. exists tc0. split; [|done]. by rewrite Hh, lookup_insert_ne.
    + intros r Hr. apply Hlive'. by apply Hkeep.
Qed.

Lemma handleExecuteTests_terminal selectedNetwork testCases w :
  Forall (fun r => is_Some (heap w !! r)) testCases ->
  ui_isExecuting (handleExecuteTests selectedNetwork testCases w) = false
  /\ forall r, r ∈ testCases ->
       exists tc,
         heap (handleExecuteTests selectedNetwork testCases w) !! r = Some tc
         /\ terminal tc.
Proof.
  intros Hlive. unfold handleExecuteTests, SE.bind, setProvider.
  set (w0 := set_provider _ _).
  destruct (for_i_terminal testCases testCases w0 Hlive) as (Hok & Hterm & _).
  destruct (for_i testCases testCases w0) as [[u|e] w1]; simpl in *; [|done].
  split; [done|]. intros r Hr. apply Hterm. by left.
Qed.
End ExecutorFacts.

(** ** Execution: the claims of the specification *)

Section ExecutionClaims.
Context {RT : Runtime} {CC : ChainClient}.
Import TestExecutor ExecSpec.

Lemma marked_same_chain updatedTests h w :
  same_chain w (set_testCases updatedTests (set_heap h w)).
Proof. by split. Qed.

(** C3 (amended): when the first step of a case faults, no later step is
    attempted, the result carries success = false and the message of the
    fault as its error, and the driver leaves the case failed with that
    message as its actualResult; the log of the result has three lines
    when the fault arises in the submission or its confirmation (start
    line, call line, error line) and two when building the contract
    handle faults, never one. *)
Theorem first_step_fault_stops_case ref tc st rest e k w :
  heap w !! ref = Some tc -> steps tc = st :: rest ->
  step_fault (provider w) (net w) st e k ->
  first_fault_claim (2 + k) ref tc e w
  /\ exists r w',
       executeTest ref w = (Ok r, w')
       /\ logs r = fault_log tc st e k
       /\ submitted w' = submitted w ++ match k with
                                        | O => []
                                        | S _ => [submission_of st]
                                        end.
Proof.
  intros Hl Hs Hf.
  destruct (executeTest_fault _ _ _ _ _ _ _ Hl Hs Hf)
    as (r & w' & Hr & Hsucc & Herr & Hlogs & Hsub).
  assert (k = 0 \/ k = 1)%nat as Hk by (inversion Hf; auto).
  split; [split|].
  - exists r, w'. repeat split; try done.
    + rewrite Hlogs. unfold fault_log. by destruct Hk as [-> | ->].
    + rewrite Hsub, length_app. destruct k; simpl; lia.
  - intros updatedTests.
    destruct (iteration_run updatedTests ref tc w Hl) as (r1 & w2 & Hr1 & _ & ->).
    set (w1 := set_testCases updatedTests _) in Hr1.
    assert (heap w1 !! ref = Some (settled tc running (actualResult tc))) as Hl1
      by (simpl; apply lookup_insert_eq).
    destruct (executeTest_fault ref _ st rest e k w1 Hl1 Hs Hf)
      as (r' & w'' & Hr' & Hsucc' & Herr' & _).
    rewrite Hr1 in Hr'. injection Hr' as <- <-.
    by rewrite Hsucc', Herr', lookup_insert_eq.
  - by exists r, w'.
Qed.


(** C8: when every step of a case completes without fault, [executeTest]
    reports success without an error, and the driver leaves the case
    passed with the fixed, non-empty narrative "Test passed successfully"
    as its actualResult, whatever was logged. *)
Theorem all_steps_complete_passes updatedTests ref tc w :
  heap w !! ref = Some tc -> all_complete (steps tc) w ->
  (exists r w', executeTest ref w = (Ok r, w')
                /\ success r = true /\ error r = None)
  /\ heap (iteration updatedTests ref w).2 !! ref
     = Some (settled tc passed (Some "Test passed successfully"))
  /\ "Test passed successfully" <> "".
Proof.
  intros Hl Hc. split; [by eapply executeTest_complete|]. split; [|done].
  destruct (iteration_run updatedTests ref tc w Hl) as (r1 & w2 & Hr1 & _ & ->).
  set (w1 := set_testCases updatedTests _) in Hr1.
  assert (heap w1 !! ref = Some (settled tc running (actualResult tc))) as Hl1
    by (simpl; apply lookup_insert_eq).
  assert (all_complete (steps (settled tc running (actualResult tc))) w1) as Hc1
    by (eapply all_complete_same_chain; [apply marked_same_chain | exact Hc]).
  destruct (executeTest_complete ref _ w1 Hl1 Hc1) as (r' & w'' & Hr' & Hsucc & _).
  rewrite Hr1 in Hr'. injection Hr' as <- <-.
  by rewrite Hsucc, lookup_insert_eq.
Qed.

(** C9: [executeTest] leaves every test-case object as it found it, the
    one it is given included; within an iteration of the driver the
    object changes only through the driver's own assignments, which set
    its status and actualResult from the returned result. *)
Theorem executeTest_leaves_case_unmodified ref w :
  heap (executeTest ref w).2 = heap w
  /\ forall updatedTests tc,
       heap w !! ref = Some tc ->
       exists r w2,
         executeTest ref
           (set_testCases updatedTests
              (set_heap (<[ref := settled tc running (actualResult tc)]> (heap w)) w))
         = (Ok r, w2)
         /\ heap (iteration updatedTests ref w).2
            = <[ref := settled tc (if success r then passed else failed)
                               (if success r then Some "Test passed successfully"
                                else error r)]> (heap w).
Proof.
  split; [apply executeTest_heap|].
  intros updatedTests tc Hl.
  destruct (iteration_run updatedTests ref tc w Hl) as (r & w2 & Hr & _ & Hh).
  by exists r, w2.
Qed.

(** C10: on a case none of whose steps has the action kind
    [CONTRACT_CALL], [executeTest] submits nothing to the chain client,
    leaves the network as it was, logs the start line only and returns
    success = true: steps of other kinds are skipped without a fault. *)
Theorem no_contract_call_no_submission ref tc w :
  heap w !! ref = Some tc ->
  Forall (fun st => action st <> "CONTRACT_CALL") (steps tc) ->
  exists r w',
    executeTest ref w = (Ok r, w')
    /\ success r = true /\ error r = None
    /\ logs r = ["Starting test: " +:+ name tc]
    /\ submitted w' = submitted w /\ net w' = net w.
Proof.
  intros Hl Hs. unfold executeTest. rewrite Hl.
  unfold try_block, SE.bind, log. simpl.
  rewrite (run_steps_skip _ _ Hs).
  destruct (Date_now (clock w)). by eexists _, _.
Qed.
End ExecutionClaims.

(** ** Concrete runs on the simulated runtime and chain client *)

Module Runs.
Import Content Spec TestExecutor ExecSpec SimChain.

(** The schema [balanceOf(address)] view, an event, [transfer(address,uint256)]
    nonpayable: six cases, in this order. *)
Example token_schema_kinds :
  omap (map kind) (@generateTestCases Sim.runtime ex_token "0xabc" 0%nat).1
  = Ok [ Some ReadCase; Some FuzzCase; Some WriteCase; Some BoundaryCase;
         Some FuzzCase; Some IntegrationCase ].
Proof. vm_compute. reflexivity. Qed.

(** A batch of one passing and one reverting case. *)
Example batch_statuses :
  let w := handleExecuteTests "sepolia" [0%nat; 1%nat]
             (world {[ 0%nat := passing_case; 1%nat := reverting_case ]}) in
  (status <$> heap w !! 0%nat, actualResult <$> heap w !! 0%nat,
   status <$> heap w !! 1%nat, actualResult <$> heap w !! 1%nat)
  = (Some passed, Some (Some "Test passed successfully"),
     Some failed, Some (Some "execution reverted")).
Proof. vm_compute. reflexivity. Qed.



(** C2 (as stated, refuted): a view function without an [inputs] list in
    front of a well-formed function makes synthesis raise; the cases of
    the well-formed function are not produced. *)
Lemma malformed_entry_aborts_counterexample :
  wf_item ex_no_inputs = false /\ wf_item ex_balanceOf = true
  /\ (@generateTestCases Sim.runtime [ex_no_inputs; ex_balanceOf] "0xabc" 0%nat).1
     = Throw (TypeError "Cannot read properties of undefined (reading 'map')")
  /\ ~ @containment_claim Sim.runtime [ex_no_inputs; ex_balanceOf] "0xabc" 0%nat.
Proof.
  split; [reflexivity|]. split; [reflexivity|]. split; [reflexivity|].
  intros (cases & Hg & _). vm_compute in Hg. discriminate Hg.
Qed.

(** C3 (as stated, refuted): the first step of the case is rejected by
    the network, and the log of the result has three lines, not one. *)
Lemma first_fault_log_length_counterexample :
  @step_fault SimChain.client (provider reverting_world) (net reverting_world)
     (call_of "revertMe") reverted 1
  /\ (exists r w', executeTest 0 reverting_world = (Ok r, w')
                   /\ length (logs r) = 3%nat)
  /\ ~ first_fault_claim 1 0 reverting_case reverted reverting_world.
Proof.
  split; [|split].
  - apply (@fault_call SimChain.client _ _ _ _
             (deployed, Some "revertMe")); reflexivity.
  - eexists _, _. split; reflexivity.
  - intros [(r & w' & He & _ & _ & Hlen & _) _].
    apply (f_equal fst) in He. simpl in He.
    vm_compute in He. injection He as <-.
    vm_compute in Hlen. discriminate Hlen.
Qed.

Lemma first_step_fault_stops_case_witness :
  first_fault_claim 3 0 reverting_case reverted reverting_world.
Proof.
  refine (proj1 (@first_step_fault_stops_case Sim.runtime SimChain.client 0%nat
                   reverting_case (call_of "revertMe")
                   [call_of "transfer"] reverted 1%nat reverting_world
                   _ _ _)).
  - reflexivity.
  - reflexivity.
  - apply (@fault_call SimChain.client _ _ _ _
             (deployed, Some "revertMe")); reflexivity.
Defined.



Lemma all_steps_complete_passes_witness :
  heap (iteration [0%nat] 0 passing_world).2 !! 0%nat
  = Some (settled passing_case passed (Some "Test passed successfully")).
Proof.
  refine (proj1 (proj2 (@all_steps_complete_passes Sim.runtime SimChain.client
                          [0%nat] 0%nat passing_case passing_world _ _))).
  - reflexivity.
  - simpl; repeat split; reflexivity.
Defined.

Lemma no_contract_call_no_submission_witness :
  exists r w',
    executeTest 0 idle_world = (Ok r, w')
    /\ success r = true /\ error r = None
    /\ logs r = ["Starting test: " +:+ name idle_case]
    /\ submitted w' = submitted idle_world /\ net w' = net idle_world.
Proof.
  apply (@no_contract_call_no_submission Sim.runtime SimChain.client 0%nat
           idle_case idle_world).
  - reflexivity.
  - repeat constructor; intros Heq; discriminate Heq.
Defined.
End Runs.

(** * Further properties of the generator *)

Section GeneratorShape.
Context {RT : Runtime}.
Import Content Spec Shape.

Lemma kind_read_name x : kind_of_name ("Read Test: " +:+ x) = Some ReadCase.
Proof. unfold kind_of_name, is_read_name. by rewrite prefix_append. Qed.

Lemma kind_write_name x : kind_of_name ("Write Test: " +:+ x) = Some WriteCase.
Proof.
  unfold kind_of_name, is_read_name, is_write_name. by rewrite prefix_append.
Qed.

Lemma kind_boundary_name x :
  kind_of_name ("Boundary Test: " +:+ x) = Some BoundaryCase.
Proof.
  unfold kind_of_name, is_read_name, is_write_name, is_boundary_name.
  by rewrite prefix_append.
Qed.

Lemma kind_fuzz_name x : kind_of_name ("Fuzzing Test: " +:+ x) = Some FuzzCase.
Proof.
  unfold kind_of_name, is_read_name, is_write_name, is_boundary_name,
    is_fuzz_name.
  by rewrite prefix_append.
Qed.

Lemma mapM_length {S A B} (f : A -> SE.t S B) l s vs s' :
  SE.mapM f l s = (Ok vs, s') -> length vs = length l.
Proof.
  revert s vs s'. induction l as [|x l IH]; intros s vs s'; simpl.
  - by intros [= <- _].
  - unfold SE.bind, SE.ret.
    destruct (f x s) as [[y|e] s1]; [|done].
    destruct (SE.mapM f l s1) as [[ys|e] s2] eqn:Hm; [|done].
    intros [= <- _]. simpl. f_equal. by eapply IH.
Qed.

Lemma omap_list_length {A B} (f : A -> outcome B) l vs :
  omap_list f l = Ok vs -> length vs = length l.
Proof.
  revert vs. induction l as [|x l IH]; intros vs; simpl.
  - by intros [= <-].
  - destruct (f x) as [y|e]; [|done]. simpl.
    destruct (omap_list f l) as [ys|e]; [|done]. simpl.
    intros [= <-]. simpl. f_equal. by apply IH.
Qed.

Lemma createViewFunctionTest_shape item address s c s' :
  createViewFunctionTest item address s = (Ok c, s') ->
  case_shape address item c.
Proof.
  unfold createViewFunctionTest. unfold_se. step_effects.
  unfold case_shape, fresh_case, step_shape, inputs_of.
  destruct (item_inputs item) as [l|]; [|done].
  intros [= <- _].
  split; [|split; [by left|]].
  - split; [done|]. split; [done|]. exists ReadCase.
    split; [exact (kind_read_name _) | exact (prefix_append "view-" _)].
  - cbn [steps]. constructor; [|constructor].
    cbn [action params contractAddress method args step_id].
    rewrite length_map. repeat split; try done.
    exact (prefix_append "step-" _).
Qed.

Lemma createWriteFunctionTest_shape item address s c s' :
  createWriteFunctionTest item address s = (Ok c, s') ->
  case_shape address item c.
Proof.
  unfold createWriteFunctionTest. unfold_se. step_effects.
  unfold case_shape, fresh_case, step_shape, inputs_of.
  destruct (item_inputs item) as [l|]; [|done].
  intros [= <- _].
  split; [|split; [by left|]].
  - split; [done|]. split; [done|]. exists WriteCase.
    split; [exact (kind_write_name _) | exact (prefix_append "write-" _)].
  - cbn [steps]. constructor; [|constructor].
    cbn [action params contractAddress method args step_id].
    rewrite length_map. repeat split; try done.
    exact (prefix_append "step-" _).
Qed.

Lemma createBoundaryTest_shape item address s c s' :
  createBoundaryTest item address s = (Ok c, s') ->
  case_shape address item c.
Proof.
  unfold createBoundaryTest. unfold_se. step_effects.
  unfold case_shape, fresh_case, step_shape, inputs_of, generateBoundaryArgs.
  destruct (item_inputs item) as [l|]; [|done].
  destruct (omap_list (boundary_value Bmin) l) as [lo|] eqn:Hlo; [|done].
  step_effects.
  destruct (omap_list (boundary_value Bmax) l) as [hi|] eqn:Hhi; [|done].
  intros [= <- _].
  apply omap_list_length in Hlo, Hhi.
  split; [|split; [by right|]].
  - split; [done|]. split; [done|]. exists BoundaryCase.
    split; [exact (kind_boundary_name _) | exact (prefix_append "boundary-" _)].
  - cbn [steps]. constructor; [|constructor; [|constructor]];
      cbn [action params contractAddress method args step_id]; repeat split;
      try done.
Qed.

Lemma createFuzzingTest_shape item address s c s' :
  createFuzzingTest item address s = (Ok c, s') ->
  case_shape address item c.
Proof.
  unfold createFuzzingTest. unfold_se. step_effects.
  unfold case_shape, fresh_case, step_shape, inputs_of, generateFuzzedArgs.
  destruct (item_inputs item) as [l|]; [|done].
  match goal with
  | |- context [SE.mapM fuzz_value l ?s0] =>
      destruct (SE.mapM fuzz_value l s0) as [[vs|e] s1] eqn:Hm; [|done]
  end.
  intros [= <- _].
  apply mapM_length in Hm.
  split; [|split; [by left|]].
  - split; [done|]. split; [done|]. exists FuzzCase.
    split; [exact (kind_fuzz_name _) | exact (prefix_append "fuzz-" _)].
  - cbn [steps]. constructor; [|constructor].
    cbn [action params contractAddress method args step_id].
    repeat split; done.
Qed.

Lemma loop_body_shape item address acc s r s' :
  loop_body item address acc s = (Ok r, s') ->
  exists seg, r = acc ++ seg /\ Forall (case_shape address item) seg.
Proof.
  unfold loop_body.
  destruct (is_function item); cycle 1.
  { intros [= <- _]. exists []. by rewrite app_nil_r. }
  unfold SE.bind at 1.
  assert (forall o1 s1,
    (if is_view_or_pure item
     then let* c := createViewFunctionTest item address in SE.ret (acc ++ [c])
     else let* c := createWriteFunctionTest item address in SE.ret (acc ++ [c])) s
    = (Ok o1, s1) ->
    exists c, o1 = acc ++ [c] /\ case_shape address item c) as H1.
  { intros o1 s1. destruct (is_view_or_pure item); unfold SE.bind, SE.ret.
    - destruct (createViewFunctionTest item address s) as [[c|e] s2] eqn:Hc;
        [|done].
      intros [= <- _]. eauto using createViewFunctionTest_shape.
    - destruct (createWriteFunctionTest item address s) as [[c|e] s2] eqn:Hc;
        [|done].
      intros [= <- _]. eauto using createWriteFunctionTest_shape. }
  match goal with
  | |- (let (_, _) := ?X in _) = _ -> _ =>
      destruct X as [[o1|e] s1] eqn:E; [|done]
  end.
  destruct (H1 o1 s1 eq_refl) as (c1 & -> & Hc1). clear H1.
  unfold SE.bind, SE.lift, SE.ret.
  destruct (inputs_some_integer (item_inputs item)) as [numeric|]; [|done].
  destruct (inputs_length (item_inputs item)) as [n|] eqn:Hn;
    [|by destruct numeric;
        [destruct (createBoundaryTest item address s1) as [[]]|]].
  destruct numeric.
  - destruct (createBoundaryTest item address s1) as [[b|e] s2] eqn:Hb; [|done].
    apply createBoundaryTest_shape in Hb.
    destruct (0 <? n)%nat.
    + destruct (createFuzzingTest item address s2) as [[f|e] s3] eqn:Hf; [|done].
      apply createFuzzingTest_shape in Hf.
      intros [= <- _]. exists [c1; b; f]. rewrite <- !app_assoc.
      split; [done|].
      repeat (apply List.Forall_cons; [done|]); apply List.Forall_nil.
    + intros [= <- _]. exists [c1; b]. rewrite <- !app_assoc.
      split; [done|].
      repeat (apply List.Forall_cons; [done|]); apply List.Forall_nil.
  - destruct (0 <? n)%nat.
    + destruct (createFuzzingTest item address s1) as [[f|e] s3] eqn:Hf; [|done].
      apply createFuzzingTest_shape in Hf.
      intros [= <- _]. exists [c1; f]. rewrite <- !app_assoc.
      split; [done|].
      repeat (apply List.Forall_cons; [done|]); apply List.Forall_nil.
    + intros [= <- _]. exists [c1]. split; [done|].
      repeat (apply List.Forall_cons; [done|]); apply List.Forall_nil.
Qed.

Lemma for_of_shape abi address acc s r s' :
  for_of abi address acc s = (Ok r, s') ->
  exists segs,
    r = acc ++ concat segs
    /\ Forall2 (fun item seg => Forall (case_shape address item) seg) abi segs.
Proof.
  revert acc s. induction abi as [|item abi IH]; intros acc s; simpl.
  - intros [= <- _]. exists []. split; [by rewrite app_nil_r | constructor].
  - unfold SE.bind.
    destruct (loop_body item address acc s) as [[r1|e] s1] eqn:Hb; [|done].
    apply loop_body_shape in Hb as (seg & -> & Hseg).
    intros (segs & -> & Hsegs)%IH.
    exists (seg :: segs). split; [by rewrite <- app_assoc | by constructor].
Qed.

Lemma generateIntegrationTests_shape abi address s r s' :
  generateIntegrationTests abi address s = (Ok r, s') ->
  Forall (integration_shape abi address) r.
Proof.
  unfold generateIntegrationTests.
  destruct (List.filter is_write abi) as [|w ws] eqn:Hw;
    [by intros [= <- _]|].
  destruct (List.filter is_read abi) as [|rd rs] eqn:Hr;
    [by intros [= <- _]|].
  assert (In w abi /\ is_write w = true) as [Hwin Hww]
    by (apply filter_In; rewrite Hw; by left).
  assert (In rd abi /\ is_read rd = true) as [Hrin Hrr]
    by (apply filter_In; rewrite Hr; by left).
  unfold_se. step_effects.
  unfold integration_shape, fresh_case, step_shape, inputs_of.
  destruct (item_inputs w) as [lw|] eqn:Hlw; simpl; [|done]. step_effects.
  destruct (item_inputs rd) as [lr|] eqn:Hlr; simpl; [|done].
  intros [= <- _]. apply List.Forall_cons; [|apply List.Forall_nil].
  split.
  - split; [done|]. split; [done|]. exists IntegrationCase.
    split; [done | exact (prefix_append "integration-" _)].
  - exists w, rd. eexists _, _.
    cbn [steps action params contractAddress method args step_id].
    rewrite Hlw, Hlr. cbn [default].
    repeat split;
      cbn [action params contractAddress method args step_id];
      rewrite ?length_map; done.
Qed.

(** Every case synthesized for a schema entry is pending, without
    result, carries an identifier that tells its kind, and has one or two
    steps, each a contract call of the entry's function at the target
    address with exactly one argument per parameter (sampled arguments
    included); the cases after the last entry are integration cases of a
    write entry and a read entry of the schema. *)
Theorem synthesized_cases_shape abi address s cases :
  (generateTestCases abi address s).1 = Ok cases ->
  exists segs tail,
    cases = concat segs ++ tail
    /\ Forall2 (fun item seg => Forall (case_shape address item) seg) abi segs
    /\ Forall (integration_shape abi address) tail.
Proof.
  unfold generateTestCases, SE.bind, SE.ret.
  destruct (for_of abi address [] s) as [[r|e] s1] eqn:Hf; [|done].
  apply for_of_shape in Hf as (segs & -> & Hsegs).
  destruct (generateIntegrationTests abi address s1) as [[tail|e] s2] eqn:Hi;
    [|done].
  apply generateIntegrationTests_shape in Hi.
  intros [= <-]. by exists segs, tail.
Qed.
End GeneratorShape.

Section GeneratorCounts.
Context {RT : Runtime}.
Import Content Spec Shape.

Lemma find_existsb {A} (p : A -> bool) l :
  match List.find p l with Some _ => true | None => false end = existsb p l.
Proof. induction l as [|x l IH]; simpl; [done|]. by destruct (p x). Qed.

Lemma segments_count abi address segs :
  wf_abi abi = true -> segments abi address segs ->
  length (concat segs) = list_sum (map cases_of_item abi).
Proof.
  intros Hwf Hs. revert Hwf.
  induction Hs as [|item seg abi segs Hi _ IH]; simpl; [done|].
  intros [Hw Hwf]%andb_prop. rewrite length_app, (IH Hwf). f_equal.
  rewrite (item_contents_wf _ _ Hw) in Hi. apply Ok_inj in Hi.
  apply (f_equal length) in Hi. rewrite length_map in Hi. rewrite <- Hi.
  unfold cases_of_item.
  destruct (is_function item); [|done].
  rewrite !length_app. simpl.
  destruct (existsb has_int_prefix (inputs_of item));
    destruct (0 <? length (inputs_of item))%nat; done.
Qed.

(** The number of cases of a well-formed schema follows the rules one
    by one: per function one read or write case, one boundary case if a
    parameter tag starts with [uint] or [int], one fuzz case if there is
    a parameter; plus one integration case if the schema has a write and
    a read function. *)
Theorem case_count_rule abi address s :
  wf_abi abi = true ->
  exists cases,
    (generateTestCases abi address s).1 = Ok cases
    /\ length cases = case_count abi.
Proof.
  intros Hwf.
  destruct (synthesizes_wf abi address s Hwf)
    as (cases & segs & tail & (Hg & -> & _) & Hsegs & Ht).
  eexists. split; [exact Hg|].
  rewrite length_app, (segments_count _ _ _ Hwf Hsegs). unfold case_count.
  f_equal.
  rewrite (integration_contents_wf _ _ Hwf) in Ht. apply Ok_inj in Ht.
  apply (f_equal length) in Ht. rewrite length_map in Ht. rewrite <- Ht.
  rewrite <- !find_existsb.
  by destruct (List.find is_write abi), (List.find is_read abi).
Qed.

Lemma some_integer_fault l e :
  some_integer l = Throw e ->
  e = TypeError "Cannot read properties of undefined (reading 'startsWith')".
Proof.
  induction l as [|input l IH]; simpl; [done|].
  destruct (input_type input) as [ty|]; [|by intros [= <-]].
  by destruct (String.prefix "uint" ty || String.prefix "int" ty).
Qed.

Lemma boundary_untyped_fault b l :
  forallb has_type l = false ->
  omap_list (boundary_value b) l
  = Throw (TypeError "Cannot read properties of undefined (reading 'startsWith')").
Proof.
  induction l as [|input l IH]; simpl; [done|].
  destruct (has_type input) eqn:Hi; simpl.
  - intros Hl. by rewrite (boundary_value_typed _ _ Hi), (IH Hl).
  - intros _. unfold boundary_value. unfold has_type in Hi.
    by destruct (input_type input).
Qed.

Lemma item_contents_fault item address :
  wf_item item = false ->
  item_contents item address = Throw (fault_of_item item).
Proof.
  unfold wf_item, item_contents, fault_of_item.
  destruct (is_function item); [|done].
  destruct (item_inputs item) as [l|]; [|done]. intros Hl. simpl.
  destruct (some_integer l) as [[]|e] eqn:Hs; simpl.
  - by rewrite (boundary_untyped_fault Bmin l Hl).
  - apply some_integer_false in Hs. congruence.
  - by rewrite (some_integer_fault _ _ Hs).
Qed.

Lemma items_contents_fault abi address item :
  List.find (fun i => negb (wf_item i)) abi = Some item ->
  items_contents abi address = Throw (fault_of_item item).
Proof.
  induction abi as [|i abi IH]; simpl; [done|].
  destruct (wf_item i) eqn:Hw; simpl.
  - intros Hf. rewrite (item_contents_wf _ _ Hw). simpl. by rewrite (IH Hf).
  - intros [= <-]. by rewrite (item_contents_fault _ _ Hw).
Qed.

Lemma generateTestCases_fault abi address s item :
  List.find (fun i => negb (wf_item i)) abi = Some item ->
  (generateTestCases abi address s).1 = Throw (fault_of_item item).
Proof.
  intros Hf.
  pose proof (generateTestCases_content abi address s) as Hc.
  unfold contents in Hc. rewrite (items_contents_fault _ _ _ Hf) in Hc.
  destruct ((generateTestCases abi address s).1) as [r|e]; simpl in Hc;
    [discriminate | congruence].
Qed.

(** When a schema has a malformed function entry, synthesis raises the
    [TypeError] of the first such entry in schema order: the one about
    [map] if its inputs list is missing, the one about [startsWith] if a
    parameter lacks its type tag. *)
Theorem first_malformed_entry_decides_fault abi address s item :
  List.find (fun i => negb (wf_item i)) abi = Some item ->
  (generateTestCases abi address s).1 = Throw (fault_of_item item).
Proof. exact (generateTestCases_fault abi address s item). Qed.

(** A schema without function entries, the empty schema included, yields
    no case and reads neither the clock nor the random source. *)
Theorem no_function_no_case abi address s :
  Forall (fun item => is_function item = false) abi ->
  generateTestCases abi address s = (Ok [], s).
Proof.
  intros Hn. rewrite generateTestCases_functions.
  assert (List.filter is_function abi = []) as ->; [|done].
  induction Hn as [|item abi Hi _ IH]; simpl; [done|]. by rewrite Hi.
Qed.

Lemma fuzz_value_shape input s :
  (forall r n, (0 < n)%Z -> (0 <= floor_times r n < n)%Z) ->
  exists v s', fuzz_value input s = (Ok v, s') /\ fuzz_shape input v.
Proof.
  intros Hfloor. unfold fuzz_value, fuzz_shape.
  repeat case_decide; try congruence; unfold_se; step_effects;
    eexists _, _; (split; [done|]);
    repeat (first [ rewrite bool_decide_eq_true_2 by done
                  | rewrite bool_decide_eq_false_2 by done ]);
    simpl; try done; try (by eexists).
  - eexists. split; [|reflexivity]. apply Hfloor. lia.
  - eexists. split; [|reflexivity]. apply Hfloor. lia.
Qed.

(** Sampled arguments: when [Math.floor(Math.random() * n)] lies in
    [[0, n)], [generateFuzzedArgs] never raises on an inputs list and
    returns one value per parameter: for [uint8] a number below 256, for
    [uint256] a whole number of units of 10^18 below 1000, for [bool] a
    boolean, for [bytes] a byte array, for [address], [string] and
    [bytes32] a string, and "0" for every other or missing type tag. *)
Theorem fuzzed_args_in_range l s :
  (forall r n, (0 < n)%Z -> (0 <= floor_times r n < n)%Z) ->
  exists vs s',
    generateFuzzedArgs (Some l) s = (Ok vs, s') /\ Forall2 fuzz_shape l vs.
Proof.
  intros Hfloor. simpl. revert s.
  induction l as [|input l IH]; intros s; simpl.
  - eexists _, _. split; [done|constructor].
  - unfold SE.bind, SE.ret.
    destruct (fuzz_value_shape input s Hfloor) as (v & s1 & -> & Hv).
    destruct (IH s1) as (vs & s2 & -> & Hvs).
    eexists _, _. split; [done|]. by constructor.
Qed.

Lemma int_tag_inv ty signed w :
  int_tag ty = Some (signed, w) ->
  (8 <= w <= 256)%Z
  /\ String.prefix "uint" ty = negb signed
  /\ (signed = true -> String.prefix "int" ty = true).
Proof.
  unfold int_tag.
  destruct (String.prefix "uint" ty).
  - destruct (substring_from 4 ty); [done|].
    destruct (decimal _ _) as [m|]; [|done].
    destruct (_ && _ && _)%bool eqn:Hm; [|done].
    intros [= <- <-]. apply andb_prop in Hm as [[H1 H2]%andb_prop _].
    apply N.leb_le in H1, H2. split; [lia|done].
  - destruct (String.prefix "int" ty); [|done].
    destruct (substring_from 3 ty); [done|].
    destruct (decimal _ _) as [m|]; [|done].
    destruct (_ && _ && _)%bool eqn:Hm; [|done].
    intros [= <- <-]. apply andb_prop in Hm as [[H1 H2]%andb_prop _].
    apply N.leb_le in H1, H2. split; [lia|done].
Qed.

(** For an integer parameter declared narrower than 256 bits, the
    boundary arguments lie outside the declared type: the maximum pass
    passes 2^256-1 (unsigned) or 2^255-1 (signed), above the largest
    representable value, and for a signed type the minimum pass passes
    -2^255, below the smallest one. *)
Theorem boundary_outside_narrow_type input ty signed w :
  input_type input = Some ty -> int_tag ty = Some (signed, w) -> (w < 256)%Z ->
  exists hi lo,
    boundary_value Bmax input = Ok (VStr (pretty hi))
    /\ boundary_value Bmin input = Ok (VStr (pretty lo))
    /\ (max_value (signed, w) < hi)%Z
    /\ (if signed then (lo < min_value (signed, w))%Z
        else lo = min_value (signed, w)).
Proof.
  intros Hty Htag Hw.
  destruct (int_tag_inv _ _ _ Htag) as ((Hlo & _) & Hu & Hi).
  unfold boundary_value, max_value, min_value. rewrite Hty, Hu.
  destruct signed; simpl.
  - rewrite (Hi eq_refl). exists MaxInt256, MinInt256.
    split; [done|]. split; [done|]. unfold MaxInt256, MinInt256.
    assert (2 ^ (w - 1) < 2 ^ 255)%Z by (apply Z.pow_lt_mono_r; lia). lia.
  - exists MaxUint256, 0%Z. split; [done|]. split; [done|]. unfold MaxUint256.
    assert (2 ^ w < 2 ^ 256)%Z by (apply Z.pow_lt_mono_r; lia). lia.
Qed.
End GeneratorCounts.

(** * Further properties of the executor *)

Section ExecutorTraces.
Context {RT : Runtime} {CC : ChainClient}.
Import TestExecutor ExecSpec Batch.

Lemma same_ui_refl w : same_ui w w.
Proof. by repeat split. Qed.

Lemma same_ui_trans w1 w2 w3 : same_ui w1 w2 -> same_ui w2 w3 -> same_ui w1 w3.
Proof.
  unfold same_ui. intros (? & ? & ? & ? & ?) (? & ? & ? & ? & ?).
  repeat split; congruence.
Qed.

(** A step reads the clock never and leaves the React state alone. *)
Lemma run_step_ui st w logs : same_ui w (run_step st (w, logs)).2.1.
Proof.
  unfold run_step. case_decide; [|apply same_ui_refl].
  unfold SE.bind, construct, log, submit, wait. simpl.
  destruct (new_Contract _ _ _) as [c|e]; simpl; [|apply same_ui_refl].
  destruct (contract_call _ _ _ _) as [[tx|e] n]; simpl; [|by repeat split].
  destruct (tx_wait _ _) as [[u|e] n']; simpl; by repeat split.
Qed.

Lemma run_steps_ui l w logs :
  same_ui w (run_steps l (w, logs)).2.1
  /\ clock (run_steps l (w, logs)).2.1 = clock w
  /\ exists extra, submitted (run_steps l (w, logs)).2.1 = submitted w ++ extra.
Proof.
  revert w logs. induction l as [|st l IH]; intros w logs; simpl.
  - split; [apply same_ui_refl|]. split; [done|]. exists []. by rewrite app_nil_r.
  - unfold SE.bind.
    pose proof (run_step_ui st w logs) as Hui.
    pose proof (run_step_frame st w logs) as (_ & _ & Hc & Hsub).
    destruct (run_step st (w, logs)) as [[u|e] [w1 logs1]]; simpl in *.
    + destruct (IH w1 logs1) as (Hui' & Hc' & extra & Hsub').
      split; [by eapply same_ui_trans|]. split; [congruence|].
      rewrite Hsub'. destruct Hsub as [-> | ->]; [by eexists|].
      rewrite <- app_assoc. by eexists.
    + split; [done|]. split; [done|].
      destruct Hsub as [-> | ->]; [exists []; by rewrite app_nil_r | by eexists].
Qed.

(** A completed step: what it submits and how many lines it logs. *)
Lemma run_step_done st w :
  (run_step st (w, [])).1 = Ok tt ->
  submitted (run_step st (w, [])).2.1
  = submitted w ++ (if is_call st then [submission_of st] else [])
  /\ length (run_step st (w, [])).2.2 = (if is_call st then 2 else 0)%nat.
Proof.
  unfold run_step, is_call. case_decide.
  - rewrite bool_decide_eq_true_2 by done.
    unfold SE.bind, construct, log, submit, wait. simpl.
    destruct (new_Contract _ _ _) as [c|e]; simpl; [|done].
    destruct (contract_call _ _ _ _) as [[tx|e] n]; simpl; [|done].
    destruct (tx_wait _ _) as [[u|e] n']; simpl; done.
  - rewrite bool_decide_eq_false_2 by done. simpl. by rewrite app_nil_r.
Qed.

(** The lines already logged do not influence a run of steps. *)
Lemma run_steps_logs l w logs :
  run_steps l (w, logs)
  = ((run_steps l (w, [])).1,
     ((run_steps l (w, [])).2.1, logs ++ (run_steps l (w, [])).2.2)).
Proof.
  revert w logs. induction l as [|st l IH]; intros w logs; simpl.
  - by rewrite app_nil_r.
  - unfold SE.bind. rewrite (run_step_logs st w logs).
    destruct (run_step st (w, [])) as [[u|e] [w1 logs1]]; simpl; [|done].
    rewrite (IH w1 (logs ++ logs1)), (IH w1 logs1). simpl.
    by rewrite app_assoc.
Qed.

Lemma run_steps_done l w :
  all_complete l w ->
  (run_steps l (w, [])).1 = Ok tt
  /\ submitted (run_steps l (w, [])).2.1 = submitted w ++ calls_of l
  /\ length (run_steps l (w, [])).2.2 = (2 * length (calls_of l))%nat.
Proof.
  revert w. induction l as [|st l IH]; intros w; simpl.
  - intros _. unfold calls_of. simpl. by rewrite app_nil_r.
  - intros [H1 H2]. unfold SE.bind.
    destruct (run_step_done st w H1) as (Hsub & Hlen).
    destruct (run_step st (w, [])) as [[u|e] [w1 logs1]]; simpl in *; [|done].
    rewrite (run_steps_logs l w1 logs1). simpl.
    destruct (IH w1 H2) as (Hok & Hsub' & Hlen').
    split; [done|]. unfold calls_of in *. simpl.
    rewrite Hsub', Hsub, length_app, Hlen, Hlen'.
    destruct (is_call st); simpl; rewrite <- ?app_assoc, ?app_nil_r;
      split; try done; lia.
Qed.

Lemma run_steps_app l1 l2 w :
  (run_steps l1 (w, [])).1 = Ok tt ->
  run_steps (l1 ++ l2) (w, []) = run_steps l2 (run_steps l1 (w, [])).2.
Proof.
  revert w. induction l1 as [|st l1 IH]; intros w; simpl; [done|].
  unfold SE.bind.
  destruct (run_step st (w, [])) as [[u|e] [w1 logs1]]; simpl; [|done].
  rewrite (run_steps_logs l1 w1 logs1), (run_steps_logs (l1 ++ l2) w1 logs1).
  simpl. intros Hok. rewrite (IH w1 Hok).
  rewrite (run_steps_logs l2 _ (logs1 ++ _)).
  rewrite (surjective_pairing (run_steps l1 (w1, []))).
  rewrite (surjective_pairing (run_steps l1 (w1, [])).2). simpl.
  rewrite (run_steps_logs l2 _ ((run_steps l1 (w1, [])).2.2)). simpl.
  by rewrite app_assoc.
Qed.

(** A run of steps completes exactly when every step completes. *)
Lemma run_steps_outcome l w :
  (run_steps l (w, [])).1 = Ok tt <-> all_complete l w.
Proof.
  split; [|apply run_steps_done].
  revert w. induction l as [|st l IH]; intros w; simpl; [done|].
  unfold SE.bind.
  destruct (run_step st (w, [])) as [[[]|e] [w1 logs1]]; simpl; [|done].
  rewrite (run_steps_logs l w1 logs1). simpl. auto.
Qed.
End ExecutorTraces.

Section ExecutorResults.
Context {RT : Runtime} {CC : ChainClient}.
Import TestExecutor ExecSpec Batch.

(** [executeTest] on a live reference, in terms of the run of its steps
    from an empty log. *)
Lemma executeTest_unfold ref tc w :
  heap w !! ref = Some tc ->
  executeTest ref w
  = let run := run_steps (steps tc) (w, []) in
    let now := Date_now (clock w) in
    (Ok (match run.1 with
         | Ok _ =>
             mkResult (id tc) true None
               (("Starting test: " +:+ name tc) :: run.2.2) now.1
         | Throw e =>
             mkResult (id tc) false (Some (message e))
               (("Starting test: " +:+ name tc) :: run.2.2
                ++ ["Error: " +:+ message e]) now.1
         end),
     set_clock now.2 run.2.1).
Proof.
  intros Hl. unfold executeTest. rewrite Hl.
  unfold try_block, SE.bind, log. simpl.
  rewrite (run_steps_logs (steps tc) w ["Starting test: " +:+ name tc]).
  destruct (run_steps_ui (steps tc) w []) as (_ & Hc & _).
  destruct (run_steps (steps tc) (w, [])) as [[u|e] [w1 logs1]]; simpl in *;
    rewrite Hc; by destruct (Date_now (clock w)).
Qed.

(** A case whose steps all complete: [executeTest] submits exactly the
    contract-call steps, in step order, and logs the start line and two
    lines per contract call. *)
Theorem completed_run_trace ref tc w :
  heap w !! ref = Some tc -> all_complete (steps tc) w ->
  exists r w',
    executeTest ref w = (Ok r, w')
    /\ success r = true /\ testCaseId r = id tc
    /\ submitted w' = submitted w ++ calls_of (steps tc)
    /\ length (logs r) = (1 + 2 * length (calls_of (steps tc)))%nat
    /\ head (logs r) = Some ("Starting test: " +:+ name tc).
Proof.
  intros Hl Hc. rewrite (executeTest_unfold _ _ _ Hl).
  destruct (run_steps_done _ _ Hc) as (Hok & Hsub & Hlen).
  eexists _, _. split; [done|]. simpl. rewrite Hok. simpl.
  rewrite Hsub, Hlen. done.
Qed.

(** A fault at any step stops the case there: the steps before it are
    submitted in order, the faulting step at most once, no step after it
    is run, and the result carries the message of the fault, which is
    also the last line of the log. *)
Theorem fault_stops_at_step ref tc pre st post e k w :
  heap w !! ref = Some tc -> steps tc = pre ++ st :: post ->
  all_complete pre w ->
  step_fault (provider w) (net (run_steps pre (w, [])).2.1) st e k ->
  exists r w',
    executeTest ref w = (Ok r, w')
    /\ success r = false /\ error r = Some (message e)
    /\ submitted w' = submitted w ++ calls_of pre ++ fault_calls st k
    /\ length (logs r) = (1 + 2 * length (calls_of pre) + k + 1)%nat
    /\ last (logs r) = Some ("Error: " +:+ message e).
Proof.
  intros Hl Hs Hpre Hf. rewrite (executeTest_unfold _ _ _ Hl).
  destruct (run_steps_done _ _ Hpre) as (Hok & Hsub & Hlen).
  destruct (run_steps_ui pre w []) as ((Hp & _) & _).
  assert (k = 0 \/ k = 1)%nat as Hk by (inversion Hf; auto).
  rewrite Hs, (run_steps_app _ _ _ Hok).
  rewrite (surjective_pairing (run_steps pre (w, []))) in *.
  rewrite (surjective_pairing (run_steps pre (w, [])).2) in *.
  simpl in *. set (w1 := (run_steps pre (w, [])).2.1) in *.
  set (logs1 := (run_steps pre (w, [])).2.2) in *.
  unfold SE.bind. rewrite <- Hp in Hf.
  destruct (run_step_fault st w1 logs1 e k Hf) as (w2 & -> & _ & _ & Hsub2).
  eexists _, _. split; [done|]. simpl.
  split; [done|]. split; [done|]. split; [|split].
  - rewrite Hsub2, Hsub. unfold fault_calls.
    by destruct Hk as [-> | ->]; rewrite <- app_assoc.
  - rewrite !length_app, Hlen. destruct Hk as [-> | ->]; simpl; lia.
  - change (?x :: ?l ++ ?l') with ((x :: l) ++ l'). by rewrite last_snoc.
Qed.

Lemma executeTest_report ref tc w :
  heap w !! ref = Some tc ->
  exists r w',
    executeTest ref w = (Ok r, w')
    /\ testCaseId r = id tc
    /\ (success r = true <-> all_complete (steps tc) w)
    /\ (success r = true <-> error r = None)
    /\ timestamp r = (Date_now (clock w)).1.
Proof.
  intros Hl. rewrite (executeTest_unfold _ _ _ Hl).
  eexists _, _. split; [done|]. simpl.
  pose proof (run_steps_outcome (steps tc) w) as Ho.
  destruct ((run_steps (steps tc) (w, [])).1) as [[]|e]; simpl.
  - split; [done|]. split; [|done]. split; [intros _; by apply Ho | done].
  - split; [done|]. split; [|done].
    split; [done|]. intros Hc. apply Ho in Hc. discriminate Hc.
Qed.

(** On a live reference [executeTest] always returns a result for that
    case; the result reports success exactly when every step completes,
    carries an error text exactly when it reports failure, and is stamped
    with the clock. *)
Theorem result_reports_completion ref tc w :
  heap w !! ref = Some tc ->
  exists r w',
    executeTest ref w = (Ok r, w')
    /\ testCaseId r = id tc
    /\ (success r = true <-> all_complete (steps tc) w)
    /\ (success r = true <-> error r = None)
    /\ timestamp r = (Date_now (clock w)).1.
Proof. exact (executeTest_report ref tc w). Qed.

Lemma executeTest_frame ref w :
  same_ui w (executeTest ref w).2
  /\ (exists extra, submitted (executeTest ref w).2 = submitted w ++ extra)
  /\ match heap w !! ref with
     | Some _ => clock (executeTest ref w).2 = (Date_now (clock w)).2
     | None =>
         executeTest ref w
         = (Throw (TypeError "Cannot read properties of undefined (reading 'id')"), w)
     end.
Proof.
  destruct (heap w !! ref) as [tc|] eqn:Hl.
  - rewrite (executeTest_unfold _ _ _ Hl). simpl.
    destruct (run_steps_ui (steps tc) w []) as (Hui & _ & Hsub).
    split; [exact Hui|]. split; [exact Hsub|done].
  - unfold executeTest. rewrite Hl. simpl.
    split; [apply same_ui_refl|]. split; [|done].
    exists []. by rewrite app_nil_r.
Qed.

(** [executeTest] leaves the provider and the React state alone, only
    appends to the submissions, and reads the clock once when the
    reference is live; on a reference to nothing it raises a [TypeError]
    and changes nothing. *)
Theorem executeTest_footprint ref w :
  same_ui w (executeTest ref w).2
  /\ (exists extra, submitted (executeTest ref w).2 = submitted w ++ extra)
  /\ match heap w !! ref with
     | Some _ => clock (executeTest ref w).2 = (Date_now (clock w)).2
     | None =>
         executeTest ref w
         = (Throw (TypeError "Cannot read properties of undefined (reading 'id')"), w)
     end.
Proof. exact (executeTest_frame ref w). Qed.
End ExecutorResults.

(** * Further properties of the handlers of [App] *)

Section BatchFacts.
Context {RT : Runtime} {CC : ChainClient}.
Import TestExecutor ExecSpec Batch.







End BatchFacts.

Section ValidationFacts.
Context {RT : Runtime} {CC : ChainClient}.
Import TestExecutor ExecSpec Batch.



(** A selection that is neither a key of the endpoint table nor a
    property name inherited by every object falls back to the mainnet
    endpoint; [setProvider] never raises and changes the provider only. *)
Theorem unknown_network_falls_back network w :
  network ∉ map fst networks -> network ∉ inherited_keys ->
  setProvider network w = (Ok tt, set_provider mainnet_url w)
  /\ heap (setProvider network w).2 = heap w
  /\ net (setProvider network w).2 = net w
  /\ submitted (setProvider network w).2 = submitted w.
Proof.
  intros Hn _. unfold setProvider.
  assert (table_lookup network networks = None) as ->; [|done].
  revert Hn. generalize networks.
  induction l as [|[k v] l IH]; simpl; [done|].
  intros Hn. apply not_elem_of_cons in Hn as [Hk Hl].
  destruct (String.eqb_spec network k); [done|auto].
Qed.

(** Every network the selector of [App] offers has an endpoint of its own
    in the table of [TestExecutor]: selecting it never falls back, and two
    different selections never share an endpoint. *)
Theorem offered_networks_have_endpoints w :
  Forall (fun entry =>
            exists url,
              table_lookup entry.1 networks = Some url
              /\ provider (setProvider entry.1 w).2 = url)
         app_networks
  /\ forall a b,
       a ∈ map fst app_networks -> b ∈ map fst app_networks ->
       provider (setProvider a w).2 = provider (setProvider b w).2 -> a = b.
Proof.
  split.
  - unfold app_networks. repeat (apply List.Forall_cons; [by eexists|]).
    apply List.Forall_nil.
  - intros a b Ha Hb. unfold setProvider. simpl.
    unfold app_networks in Ha, Hb. simpl in Ha, Hb.
    repeat (apply elem_of_cons in Ha as [->|Ha]); [..|by apply not_elem_of_nil in Ha];
      repeat (apply elem_of_cons in Hb as [->|Hb]);
      try (by apply not_elem_of_nil in Hb); try done;
      vm_compute; intros [=].
Qed.
End ValidationFacts.

Section GenerateFacts.
Context {RT : Runtime} {CC : ChainClient}.
Variable JSON_parse : string -> option (list AbiItem).
Import TestExecutor ExecSpec Batch Spec Shape.

(** Storing the synthesized objects: fresh, distinct locations, in order;
    the objects already in the heap stay as they are. *)
Lemma store_cases_spec cases (h : gmap nat TestCase) :
  let refs := (store_cases cases h).1 in
  let h' := (store_cases cases h).2 in
  Forall2 (fun l c => h' !! l = Some c) refs cases
  /\ NoDup refs
  /\ Forall (fun l => h !! l = None) refs
  /\ forall l x, h !! l = Some x -> h' !! l = Some x.
Proof.
  revert h. induction cases as [|c cases IH]; intros h; simpl.
  - repeat split; try constructor. done.
  - set (l := fresh (dom h)).
    assert (h !! l = None) as Hfresh
      by (apply not_elem_of_dom; apply is_fresh).
    specialize (IH (<[l := c]> h)).
    destruct (store_cases cases (<[l := c]> h)) as [ls h'] eqn:Hs.
    simpl in *. destruct IH as (Hall & Hnd & Hnew & Hold).
    assert (l ∉ ls) as Hnotin.
    { intros Hin. rewrite Forall_forall in Hnew.
      specialize (Hnew l Hin). by rewrite lookup_insert_eq in Hnew. }
    repeat split.
    + constructor; [|done]. apply Hold. apply lookup_insert_eq.
    + by constructor.
    + constructor; [done|]. eapply Forall_impl; [exact Hnew|].
      intros l' Hl'. simpl in Hl'.
      destruct (decide (l = l')) as [->|Hne];
        [by rewrite lookup_insert_eq in Hl' | by rewrite lookup_insert_ne in Hl'].
    + intros l' x Hl'. apply Hold.
      destruct (decide (l = l')) as [->|Hne]; [congruence|].
      by rewrite lookup_insert_ne.
Qed.

Lemma handleGenerateTests_ok abi contractAddress parsed a :
  JSON_parse abi = Some parsed -> wf_abi parsed = true ->
  let a' := handleGenerateTests JSON_parse abi contractAddress a in
  isGenerating a' = false /\ ui_error (app_world a') = ""
  /\ exists cases,
       (generateTestCases parsed contractAddress (clock (app_world a))).1 = Ok cases
       /\ Forall2 (fun l c => heap (app_world a') !! l = Some c)
                  (ui_testCases (app_world a')) cases
       /\ NoDup (ui_testCases (app_world a'))
       /\ Forall (fun l => heap (app_world a) !! l = None)
                 (ui_testCases (app_world a'))
       /\ forall l x, heap (app_world a) !! l = Some x ->
                      heap (app_world a') !! l = Some x.
Proof.
  intros Hp Hwf. unfold handleGenerateTests. rewrite Hp.
  cbn [clock set_error heap].
  pose proof (generateTestCases_ok parsed contractAddress (clock (app_world a)))
    as Hok. rewrite Hwf in Hok.
  destruct (generateTestCases parsed contractAddress (clock (app_world a)))
    as [[cases|e] c]; [|done].
  pose proof (store_cases_spec cases (heap (app_world a))) as Hs.
  destruct (store_cases cases (heap (app_world a))) as [refs h]. simpl in *.
  split; [done|]. split; [done|]. by exists cases.
Qed.

(** A successful generation: with a parsed, well-formed schema the
    handler clears the error and the generating flag and replaces the
    list of test cases by references to the synthesized cases, in order,
    at distinct locations that were free before; objects that were in the
    heap are not touched. *)
Theorem generation_installs_cases abi contractAddress parsed a :
  JSON_parse abi = Some parsed -> wf_abi parsed = true ->
  let a' := handleGenerateTests JSON_parse abi contractAddress a in
  isGenerating a' = false /\ ui_error (app_world a') = ""
  /\ exists cases,
       (generateTestCases parsed contractAddress (clock (app_world a))).1 = Ok cases
       /\ Forall2 (fun l c => heap (app_world a') !! l = Some c)
                  (ui_testCases (app_world a')) cases
       /\ NoDup (ui_testCases (app_world a'))
       /\ Forall (fun l => heap (app_world a) !! l = None)
                 (ui_testCases (app_world a'))
       /\ forall l x, heap (app_world a) !! l = Some x ->
                      heap (app_world a') !! l = Some x.
Proof. exact (handleGenerateTests_ok abi contractAddress parsed a). Qed.

Lemma find_malformed abi :
  wf_abi abi = false ->
  exists item, List.find (fun i => negb (wf_item i)) abi = Some item.
Proof.
  induction abi as [|i abi IH]; simpl; [done|].
  destruct (wf_item i); simpl; [auto|by eexists].
Qed.

(** A failed generation: when the text does not parse, or the parsed
    schema has a malformed function entry, the handler shows a non-empty
    error text (the fixed one for a parse failure, the message of the
    [TypeError] otherwise), clears the generating flag, and keeps the
    former list of test cases and every object of the heap. *)
Theorem generation_failure_keeps_cases abi contractAddress a :
  match JSON_parse abi with
  | None => True
  | Some parsed => wf_abi parsed = false
  end ->
  let a' := handleGenerateTests JSON_parse abi contractAddress a in
  isGenerating a' = false
  /\ ui_error (app_world a') <> ""
  /\ ui_error (app_world a')
     = match JSON_parse abi with
       | None => "Invalid ABI format. Please provide a valid JSON ABI."
       | Some parsed =>
           match List.find (fun i => negb (wf_item i)) parsed with
           | Some item => message (fault_of_item item)
           | None => ""
           end
       end
  /\ ui_testCases (app_world a') = ui_testCases (app_world a)
  /\ heap (app_world a') = heap (app_world a).
Proof.
  unfold handleGenerateTests.
  destruct (JSON_parse abi) as [parsed|]; [|by intros _].
  intros Hwf. destruct (find_malformed _ Hwf) as (item & Hitem).
  cbn [clock set_error heap].
  pose proof (generateTestCases_fault parsed contractAddress
                (clock (app_world a)) item Hitem) as Hf.
  destruct (generateTestCases parsed contractAddress (clock (app_world a)))
    as [[cases|e] c]; simpl in Hf; [done|].
  injection Hf as ->. rewrite Hitem. simpl.
  split; [done|]. split; [|done].
  unfold fault_of_item. by destruct (item_inputs item).
Qed.

End GenerateFacts.

(** ** Further concrete runs *)

Module MoreRuns.
Import Content Spec Shape TestExecutor ExecSpec Batch SimChain MoreSim.

Lemma synthesized_cases_shape_witness :
  exists cases segs tail,
    (@generateTestCases Sim.runtime ex_token "0xabc" 0%nat).1 = Ok cases
    /\ cases = concat segs ++ tail
    /\ Forall2 (fun item seg => Forall (case_shape "0xabc" item) seg) ex_token segs
    /\ Forall (integration_shape ex_token "0xabc") tail.
Proof.
  destruct ((@generateTestCases Sim.runtime ex_token "0xabc" 0%nat).1)
    as [cases|e] eqn:Hg; [|vm_compute in Hg; discriminate Hg].
  destruct (@synthesized_cases_shape Sim.runtime ex_token "0xabc" 0%nat cases Hg)
    as (segs & tail & Hshape).
  by exists cases, segs, tail.
Defined.

Lemma case_count_rule_witness :
  exists cases,
    (@generateTestCases Sim.runtime ex_token "0xabc" 0%nat).1 = Ok cases
    /\ length cases = 6%nat.
Proof.
  apply (@case_count_rule Sim.runtime ex_token "0xabc" 0%nat). reflexivity.
Defined.

Lemma first_malformed_entry_decides_fault_witness :
  (@generateTestCases Sim.runtime [ex_balanceOf; ex_no_inputs; ex_transfer]
     "0xabc" 0%nat).1
  = Throw (TypeError "Cannot read properties of undefined (reading 'map')").
Proof.
  apply (@first_malformed_entry_decides_fault Sim.runtime
           [ex_balanceOf; ex_no_inputs; ex_transfer] "0xabc" 0%nat ex_no_inputs).
  reflexivity.
Defined.

Lemma no_function_no_case_witness :
  @generateTestCases Sim.runtime [ex_event; ex_event] "0xabc" 7%nat = (Ok [], 7%nat).
Proof.
  apply (@no_function_no_case Sim.runtime [ex_event; ex_event] "0xabc" 7%nat).
  by repeat constructor.
Defined.

Lemma sim_floor_in_range (r : nat) (n : Z) :
  (0 < n)%Z -> (0 <= Sim.sim_floor_times r n < n)%Z.
Proof. intros Hn. unfold Sim.sim_floor_times. by apply Z.mod_pos_bound. Qed.

Lemma fuzzed_args_in_range_witness :
  exists vs s',
    @generateFuzzedArgs Sim.runtime
      (Some [mkInput None (Some "uint8"); mkInput None (Some "tuple")]) 300%nat
    = (Ok vs, s')
    /\ Forall2 fuzz_shape
         [mkInput None (Some "uint8"); mkInput None (Some "tuple")] vs.
Proof.
  apply (@fuzzed_args_in_range Sim.runtime). exact sim_floor_in_range.
Defined.

Lemma boundary_outside_narrow_type_witness :
  exists hi lo,
    @boundary_value Sim.runtime Bmax (mkInput (Some "fee") (Some "int16"))
    = Ok (VStr (pretty hi))
    /\ @boundary_value Sim.runtime Bmin (mkInput (Some "fee") (Some "int16"))
       = Ok (VStr (pretty lo))
    /\ (max_value (true, 16%Z) < hi)%Z
    /\ (lo < min_value (true, 16%Z))%Z.
Proof.
  apply (@boundary_outside_narrow_type Sim.runtime
           (mkInput (Some "fee") (Some "int16")) "int16" true 16%Z);
    [reflexivity | reflexivity | lia].
Defined.

Lemma completed_run_trace_witness :
  exists r w',
    executeTest 0 passing_world = (Ok r, w')
    /\ success r = true /\ testCaseId r = "case-2"
    /\ submitted w' = submitted passing_world ++ calls_of (steps passing_case)
    /\ length (logs r) = 5%nat
    /\ head (logs r) = Some "Starting test: Passing".
Proof.
  apply (@completed_run_trace Sim.runtime client 0%nat passing_case passing_world).
  - reflexivity.
  - simpl; repeat split; reflexivity.
Defined.

Lemma fault_stops_at_step_witness :
  exists r w',
    executeTest 0 late_revert_world = (Ok r, w')
    /\ success r = false /\ error r = Some "execution reverted"
    /\ submitted w'
       = submitted late_revert_world
         ++ calls_of [call_of "approve"] ++ fault_calls (call_of "revertMe") 1
    /\ length (logs r) = 5%nat
    /\ last (logs r) = Some "Error: execution reverted".
Proof.
  apply (@fault_stops_at_step Sim.runtime client 0%nat late_revert_case
           [call_of "approve"] (call_of "revertMe") [call_of "transfer"]
           reverted 1%nat late_revert_world).
  - reflexivity.
  - reflexivity.
  - simpl; repeat split; reflexivity.
  - apply (@fault_call client _ _ _ _ (deployed, Some "revertMe")); reflexivity.
Defined.

Lemma result_reports_completion_witness :
  exists r w',
    executeTest 0 reverting_world = (Ok r, w')
    /\ testCaseId r = "case-1"
    /\ (success r = true <-> all_complete (steps reverting_case) reverting_world)
    /\ (success r = true <-> error r = None)
    /\ timestamp r = 1700000000000%Z.
Proof.
  apply (@result_reports_completion Sim.runtime client 0%nat reverting_case
           reverting_world).
  reflexivity.
Defined.


Lemma unknown_network_falls_back_witness :
  setProvider "ropsten" mixed_world
  = (Ok tt, set_provider mainnet_url mixed_world).
Proof.
  refine (proj1 (@unknown_network_falls_back Sim.runtime client "ropsten"
                   mixed_world _ _)).
  - intros Hin. vm_compute in Hin.
    repeat (apply elem_of_cons in Hin as [Hin|Hin]; [discriminate Hin|]).
    by apply not_elem_of_nil in Hin.
  - intros Hin. unfold inherited_keys in Hin.
    repeat (apply elem_of_cons in Hin as [Hin|Hin]; [discriminate Hin|]).
    by apply not_elem_of_nil in Hin.
Defined.

Lemma generation_installs_cases_witness :
  isGenerating (handleGenerateTests sim_parse "token" "0xabc" empty_app) = false
  /\ ui_error (app_world (handleGenerateTests sim_parse "token" "0xabc" empty_app))
     = "".
Proof.
  pose proof (@generation_installs_cases Sim.runtime client sim_parse "token"
                "0xabc" ex_token empty_app eq_refl eq_refl) as (H1 & H2 & _).
  by split.
Defined.

Lemma generation_failure_keeps_cases_witness :
  ui_error (app_world (handleGenerateTests sim_parse "broken" "0xabc" empty_app))
  = "Cannot read properties of undefined (reading 'map')".
Proof.
  pose proof (@generation_failure_keeps_cases Sim.runtime client sim_parse
                "broken" "0xabc" empty_app eq_refl) as (_ & _ & H & _).
  exact H.
Defined.

End MoreRuns.
